(** * generate_editorconfig.py: inference of formatting conventions

    A shallow embedding of [generate_editorconfig.py]: the per-file analyzer
    [analyze_file], the aggregation [aggregate_properties] with
    [determine_setting], the renderer [generate_editorconfig] and the scan
    loop of [main], followed by the properties of the specification.

    Python values are modelled as follows.
    - [str] is a list of code points ([text]); [bytes] is [list byte].
    - [int] is [Z].
    - [dict] and [collections.Counter] keep insertion order, which decides
      every tie of [most_common]; both are association lists.
    - [None] is [None]; the strings ['tab'], ['space'], ['lf'], ... that the
      program uses as tags are enumerations. *)

From Stdlib Require Import NArith ZArith Lia Bool String Ascii List.
From Stdlib.Strings Require Import Byte.
From Stdlib Require Import Permutation Sorted DecimalString.
Import ListNotations.


(** ** Text *)

Definition text := list N.

Definition TAB : N := 9.
Definition LF : N := 10.
Definition CR : N := 13.
Definition SP : N := 32.

(** A string literal of the source, as code points. *)
Definition lit (s : string) : text :=
  map (fun b => Byte.to_N b) (list_byte_of_string s).

Fixpoint text_eqb (s t : text) : bool :=
  match s, t with
  | [], [] => true
  | a :: s', b :: t' => N.eqb a b && text_eqb s' t'
  | _, _ => false
  end.

(** [s < t] on [str]: lexicographic on code points. *)
Fixpoint text_ltb (s t : text) : bool :=
  match s, t with
  | _, [] => false
  | [], _ :: _ => true
  | a :: s', b :: t' => N.ltb a b || (N.eqb a b && text_ltb s' t')
  end.

(** [t.startswith(p)] *)
Fixpoint startswith (p t : text) : bool :=
  match p, t with
  | [], _ => true
  | _ :: _, [] => false
  | a :: p', b :: t' => N.eqb a b && startswith p' t'
  end.

(** [t.count(sub)]: occurrences of [sub] found from left to right, the
    search resuming after each occurrence ([skip] is what is left of the
    occurrence just counted). *)
Fixpoint count_from (sub : text) (skip : nat) (t : text) : Z :=
  match t with
  | [] => 0
  | _ :: t' =>
      match skip with
      | S k => count_from sub k t'
      | O => if startswith sub t
             then 1 + count_from sub (length sub - 1) t'
             else count_from sub 0 t'
      end
  end%Z.

Definition str_count (sub t : text) : Z :=
  match sub with
  | [] => Z.of_nat (length t) + 1
  | _ :: _ => count_from sub 0 t
  end%Z.

(** The line boundaries of [str.splitlines]. *)
Definition is_linebreak (c : N) : bool :=
  existsb (N.eqb c) [10; 13; 11; 12; 28; 29; 30; 133; 8232; 8233]%N.

(** [t.splitlines()]: the lines without their terminators, CR LF being one
    terminator; no line follows the last terminator. *)
Fixpoint splitlines (t : text) : list text :=
  match t with
  | [] => []
  | c :: t' =>
      if is_linebreak c then
        [] :: match t' with
              | d :: t'' => if N.eqb c CR && N.eqb d LF
                            then splitlines t'' else splitlines t'
              | [] => []
              end
      else
        match splitlines t' with
        | [] => [[c]]
        | l :: ls => (c :: l) :: ls
        end
  end.

Definition in_chars (chars : text) (c : N) : bool := existsb (N.eqb c) chars.

(** [t.lstrip(chars)] *)
Fixpoint lstrip (chars t : text) : text :=
  match t with
  | [] => []
  | c :: t' => if in_chars chars c then lstrip chars t' else t
  end.

(** ** Counter *)

Class EqDec (K : Type) := eq_dec : forall x y : K, {x = y} + {x <> y}.

Section Counter.
Context {K : Type} `{EqDec K}.

(** Keys in insertion order, each once. *)
Definition Counter := list (K * Z).

(** [c[k]], 0 for a missing key. *)
Fixpoint counter_get (k : K) (c : Counter) : Z :=
  match c with
  | [] => 0%Z
  | (k', n) :: c' => if eq_dec k k' then n else counter_get k c'
  end.

(** [c[k] = v]: an existing key keeps its place, a new one goes last. *)
Fixpoint counter_set (k : K) (v : Z) (c : Counter) : Counter :=
  match c with
  | [] => [(k, v)]
  | (k', n) :: c' =>
      if eq_dec k k' then (k', v) :: c' else (k', n) :: counter_set k v c'
  end.

(** [c[k] += 1], which is also [c.update([k])]. *)
Definition counter_incr (k : K) (c : Counter) : Counter :=
  counter_set k (counter_get k c + 1)%Z c.

(** [max(items, key=itemgetter(1))] from a first item on: a later item
    replaces the best one only when it is strictly greater. *)
Definition max_item (x : K * Z) (xs : Counter) : K * Z :=
  fold_left (fun best y => if (snd best <? snd y)%Z then y else best) xs x.

(** [c.most_common(1)], that is [heapq.nlargest(1, c.items(), key=count)]. *)
Definition most_common1 (c : Counter) : list (K * Z) :=
  match c with
  | [] => []
  | x :: xs => [max_item x xs]
  end.
End Counter.

(** Truth value of a container: non-empty. *)
Definition truthy {A : Type} (l : list A) : bool :=
  match l with [] => false | _ :: _ => true end.

Arguments Counter K : clear implicits.

(** ** FileProperties *)

Inductive IndentStyle := tab | space.
Inductive Eol := crlf | cr | lf.
Inductive Charset := utf_8 | utf_16 | latin_1.

#[export] Instance IndentStyle_eq_dec : EqDec IndentStyle.
Proof. intros x y; unfold EqDec; decide equality. Defined.
#[export] Instance Eol_eq_dec : EqDec Eol.
Proof. intros x y; unfold EqDec; decide equality. Defined.
#[export] Instance Charset_eq_dec : EqDec Charset.
Proof. intros x y; unfold EqDec; decide equality. Defined.
#[export] Instance Z_eq_dec : EqDec Z := Z.eq_dec.

(** The [properties] dictionary of [analyze_file]. *)
Record FileProperties := mkProps {
  indent_style : option IndentStyle;
  indent_size : option Z;
  eol : option Eol;
  charset : option Charset
}.

Definition init_properties : FileProperties := mkProps None None None None.

Definition set_indent_style v p :=
  mkProps (Some v) (indent_size p) (eol p) (charset p).
Definition set_indent_size v p :=
  mkProps (indent_style p) (Some v) (eol p) (charset p).
Definition set_eol v p :=
  mkProps (indent_style p) (indent_size p) (Some v) (charset p).
Definition set_charset v p :=
  mkProps (indent_style p) (indent_size p) (eol p) (Some v).

(** ** Codecs

    [bytes.decode] of the Python standard library in its strict mode, where
    an ill-formed input raises [UnicodeDecodeError] (here [None]). *)

Local Open Scope N_scope.

Definition in_range (lo hi b : N) : bool := (lo <=? b) && (b <=? hi).
Definition is_cont (b : N) : bool := in_range 0x80 0xBF b.

(** UTF-8: shortest forms only, no surrogates, nothing above U+10FFFF. *)
Fixpoint utf8_chars (bs : list N) : option text :=
  match bs with
  | [] => Some []
  | b0 :: r0 =>
      if b0 <? 0x80 then option_map (cons b0) (utf8_chars r0)
      else if in_range 0xC2 0xDF b0 then
        match r0 with
        | b1 :: r1 =>
            if is_cont b1
            then option_map (cons ((b0 - 0xC0) * 0x40 + (b1 - 0x80)))
                            (utf8_chars r1)
            else None
        | _ => None
        end
      else if in_range 0xE0 0xEF b0 then
        match r0 with
        | b1 :: b2 :: r2 =>
            if in_range (if b0 =? 0xE0 then 0xA0 else 0x80)
                        (if b0 =? 0xED then 0x9F else 0xBF) b1
               && is_cont b2
            then option_map
                   (cons ((b0 - 0xE0) * 0x1000 + (b1 - 0x80) * 0x40
                          + (b2 - 0x80)))
                   (utf8_chars r2)
            else None
        | _ => None
        end
      else if in_range 0xF0 0xF4 b0 then
        match r0 with
        | b1 :: b2 :: b3 :: r3 =>
            if in_range (if b0 =? 0xF0 then 0x90 else 0x80)
                        (if b0 =? 0xF4 then 0x8F else 0xBF) b1
               && is_cont b2 && is_cont b3
            then option_map
                   (cons ((b0 - 0xF0) * 0x40000 + (b1 - 0x80) * 0x1000
                          + (b2 - 0x80) * 0x40 + (b3 - 0x80)))
                   (utf8_chars r3)
            else None
        | _ => None
        end
      else None
  end.

Definition decode_utf8 (raw : list byte) : option text :=
  utf8_chars (map Byte.to_N raw).

(** The 16-bit units of a byte string; an odd byte left over is an error. *)
Fixpoint utf16_units (big_endian : bool) (bs : list N) : option (list N) :=
  match bs with
  | [] => Some []
  | [_] => None
  | b0 :: b1 :: r =>
      option_map
        (cons (if big_endian then b0 * 0x100 + b1 else b1 * 0x100 + b0))
        (utf16_units big_endian r)
  end.

(** Units to code points; a surrogate that is not half of a pair is an
    error. *)
Fixpoint utf16_chars (us : list N) : option text :=
  match us with
  | [] => Some []
  | u :: r =>
      if in_range 0xD800 0xDBFF u then
        match r with
        | lo :: r' =>
            if in_range 0xDC00 0xDFFF lo
            then option_map
                   (cons (0x10000 + (u - 0xD800) * 0x400 + (lo - 0xDC00)))
                   (utf16_chars r')
            else None
        | [] => None
        end
      else if in_range 0xDC00 0xDFFF u then None
      else option_map (cons u) (utf16_chars r)
  end.

(** UTF-16: a leading byte order mark chooses the byte order and is
    dropped; without one the byte order is the host's. *)
Definition decode_utf16 (host_big_endian : bool) (raw : list byte)
  : option text :=
  let bs := map Byte.to_N raw in
  let '(big_endian, body) :=
    match bs with
    | 0xFF :: 0xFE :: r => (false, r)
    | 0xFE :: 0xFF :: r => (true, r)
    | _ => (host_big_endian, bs)
    end in
  match utf16_units big_endian body with
  | Some us => utf16_chars us
  | None => None
  end.

(** Latin-1 maps every byte to the code point of the same value. *)
Definition decode_latin1 (raw : list byte) : text := map Byte.to_N raw.

Local Close Scope N_scope.

(** [math.gcd] of any number of arguments. *)
Definition math_gcd (args : list Z) : Z :=
  match args with
  | [] => 0%Z
  | x :: xs => fold_left Z.gcd xs (Z.abs x)
  end.

(** ** The per-file analyzer *)

(** Line-ending counts of [analyze_file]. *)
Definition crlf_count (t : text) : Z := str_count [CR; LF] t.
Definition cr_count (t : text) : Z := (str_count [CR] t - crlf_count t)%Z.
Definition lf_count (t : text) : Z := (str_count [LF] t - crlf_count t)%Z.

Definition eol_counter (t : text) : Counter Eol :=
  [(crlf, crlf_count t); (cr, cr_count t); (lf, lf_count t)].

(** One iteration of the loop over [text.splitlines()]: the state is
    [(indent_counter, indent_sizes)]. *)
Definition indent_step (st : Counter IndentStyle * list Z) (line : text)
  : Counter IndentStyle * list Z :=
  let stripped_line := lstrip [TAB; SP] line in
  if negb (truthy stripped_line) then st
  else
    let indent := firstn (length line - length stripped_line) line in
    if startswith [TAB] indent then (counter_incr tab (fst st), snd st)
    else if startswith [SP] indent then
      let space_count := Z.of_nat (length indent) in
      (counter_incr space (fst st), snd st ++ [space_count])
    else st.

Definition indent_scan (t : text) : Counter IndentStyle * list Z :=
  fold_left indent_step (splitlines t) ([], []).

Definition indent_counter (t : text) : Counter IndentStyle :=
  fst (indent_scan t).
Definition indent_sizes (t : text) : list Z := snd (indent_scan t).

(** Exceptions that the body of [analyze_file] can meet, and the monad of
    its [try] block: the state is the [properties] dictionary, which keeps
    what was stored before an exception. *)
Inductive exn := OSError | UnicodeDecodeError | IndexError.

Inductive result (A : Type) :=
| Return (a : A)
| Raise (e : exn).
Arguments Return {A} a.
Arguments Raise {A} e.

Definition M (A : Type) := FileProperties -> result A * FileProperties.

Definition ret {A} (a : A) : M A := fun p => (Return a, p).
Definition raise {A} (e : exn) : M A := fun p => (Raise e, p).
Definition bind {A B} (m : M A) (k : A -> M B) : M B :=
  fun p => match m p with
           | (Return a, p') => k a p'
           | (Raise e, p') => (Raise e, p')
           end.
Definition store (f : FileProperties -> FileProperties) : M unit :=
  fun p => (Return tt, f p).

Definition exn_eqb (a b : exn) : bool :=
  match a, b with
  | OSError, OSError | UnicodeDecodeError, UnicodeDecodeError
  | IndexError, IndexError => true
  | _, _ => false
  end.

(** [try: m except e0: handler] *)
Definition try_except {A} (m : M A) (e0 : exn) (handler : M A) : M A :=
  fun p => match m p with
           | (Raise e, p') => if exn_eqb e e0 then handler p' else (Raise e, p')
           | r => r
           end.

Notation "x <- m ;; k" := (bind m (fun x => k))
  (at level 61, m at next level, right associativity).
Notation "m ;;; k" := (bind m (fun _ => k))
  (at level 61, right associativity).

(** [l[0]] *)
Definition item0 {A} (l : list A) : M A :=
  match l with
  | x :: _ => ret x
  | [] => raise IndexError
  end.

(** [raw.decode(...)] in strict mode. *)
Definition decoded (r : option text) : M text :=
  match r with
  | Some t => ret t
  | None => raise UnicodeDecodeError
  end.

Definition is_space (s : IndentStyle) : bool :=
  match s with space => true | tab => false end.

Section Host.
(** The host: its byte order and its files ([None]: the file cannot be
    opened or read). *)
Variable host_big_endian : bool.
Variable fs : text -> option (list byte).

Definition open_read (filepath : text) : M (list byte) :=
  match fs filepath with
  | Some raw => ret raw
  | None => raise OSError
  end.

(** The charset detection of [analyze_file]. *)
Definition detect_charset (raw : list byte) : M text :=
  try_except
    (t <- decoded (decode_utf8 raw) ;;
     store (set_charset utf_8) ;;; ret t)
    UnicodeDecodeError
    (try_except
       (t <- decoded (decode_utf16 host_big_endian raw) ;;
        store (set_charset utf_16) ;;; ret t)
       UnicodeDecodeError
       (t <- ret (decode_latin1 raw) ;;
        store (set_charset latin_1) ;;; ret t)).

(** The body of the outer [try] of [analyze_file]. *)
Definition analyze_body (filepath : text) : M unit :=
  raw <- open_read filepath ;;
  text <- detect_charset raw ;;
  dominant_eol <-
    (if truthy (eol_counter text)
     then x <- item0 (most_common1 (eol_counter text)) ;; ret (fst x)
     else ret lf) ;;
  store (set_eol dominant_eol) ;;;
  if truthy (indent_counter text) then
    x <- item0 (most_common1 (indent_counter text)) ;;
    let dominant_indent_style := fst x in
    store (set_indent_style dominant_indent_style) ;;;
    if is_space dominant_indent_style && truthy (indent_sizes text) then
      indent_size_gcd <-
        (if (1 <? length (indent_sizes text))%nat
         then ret (math_gcd (indent_sizes text))
         else item0 (indent_sizes text)) ;;
      store (set_indent_size indent_size_gcd)
    else ret tt
  else ret tt.

(** [analyze_file]: whatever the body raises is caught and the dictionary
    is returned as it is. *)
Definition analyze_file (filepath : text) : FileProperties :=
  snd (analyze_body filepath init_properties).
End Host.

(** ** Dictionaries *)

Section Dict.
Context {V : Type}.

(** Keys in insertion order, each once. *)
Definition dict := list (text * V).

Fixpoint dict_get (k : text) (d : dict) : option V :=
  match d with
  | [] => None
  | (k', v) :: d' => if text_eqb k k' then Some v else dict_get k d'
  end.

(** [d[k]] read from a [defaultdict]. *)
Definition get_or (default : V) (d : dict) (k : text) : V :=
  match dict_get k d with Some v => v | None => default end.

(** [d[k] = f(d[k])] on a [defaultdict]: a missing key is first created
    with the default value, after the existing keys. *)
Fixpoint dict_update (default : V) (k : text) (f : V -> V) (d : dict)
  : dict :=
  match d with
  | [] => [(k, f default)]
  | (k', v) :: d' =>
      if text_eqb k k' then (k', f v) :: d'
      else (k', v) :: dict_update default k f d'
  end.

(** [sorted(d.items())]: a stable sort with [<]; the keys of a dictionary
    differ, so the comparison of two items is decided by their keys. *)
Fixpoint insert_item (x : text * V) (l : dict) : dict :=
  match l with
  | [] => [x]
  | y :: l' => if text_ltb (fst y) (fst x) then y :: insert_item x l'
               else x :: l
  end.

Definition sorted (d : dict) : dict := fold_right insert_item [] d.
End Dict.

Arguments dict V : clear implicits.

(** ** Aggregation *)

(** The four counters that [aggregated] holds for an extension. *)
Record Tallies := mkTallies {
  indent_style_votes : Counter IndentStyle;
  indent_size_votes : Counter Z;
  eol_votes : Counter Eol;
  charset_votes : Counter Charset
}.

(** The value that the [defaultdict] creates for a new extension. *)
Definition no_votes : Tallies := mkTallies [] [] [] [].

Definition vote_indent_style v a :=
  mkTallies (counter_incr v (indent_style_votes a)) (indent_size_votes a)
            (eol_votes a) (charset_votes a).
Definition vote_indent_size v a :=
  mkTallies (indent_style_votes a) (counter_incr v (indent_size_votes a))
            (eol_votes a) (charset_votes a).
Definition vote_eol v a :=
  mkTallies (indent_style_votes a) (indent_size_votes a)
            (counter_incr v (eol_votes a)) (charset_votes a).
Definition vote_charset v a :=
  mkTallies (indent_style_votes a) (indent_size_votes a) (eol_votes a)
            (counter_incr v (charset_votes a)).

(** [if value: aggregated[ext][prop].update([value])]: [None] and the
    integer 0 are false, the tags are non-empty strings and so true. *)
Definition vote_tag {K} (vote : K -> Tallies -> Tallies) (ext : text)
    (value : option K) (aggregated : dict Tallies) : dict Tallies :=
  match value with
  | Some v => dict_update no_votes ext (vote v) aggregated
  | None => aggregated
  end.

Definition vote_int (vote : Z -> Tallies -> Tallies) (ext : text)
    (value : option Z) (aggregated : dict Tallies) : dict Tallies :=
  match value with
  | Some v => if (v =? 0)%Z then aggregated
              else dict_update no_votes ext (vote v) aggregated
  | None => aggregated
  end.

(** The loop over [props.items()], in the order of the keys of
    [properties]. *)
Definition aggregate_props (ext : text) (aggregated : dict Tallies)
    (props : FileProperties) : dict Tallies :=
  vote_tag vote_charset ext (charset props)
    (vote_tag vote_eol ext (eol props)
       (vote_int vote_indent_size ext (indent_size props)
          (vote_tag vote_indent_style ext (indent_style props) aggregated))).

Definition aggregate_properties (file_properties : dict (list FileProperties))
  : dict Tallies :=
  fold_left
    (fun aggregated item =>
       fold_left (aggregate_props (fst item)) (snd item) aggregated)
    file_properties [].

(** [aggregated[ext]] read from the [defaultdict]. *)
Definition tallies_of (aggregated : dict Tallies) (ext : text) : Tallies :=
  match dict_get ext aggregated with
  | Some a => a
  | None => no_votes
  end.

(** [determine_setting]; [most_common(1)] of a non-empty counter has an
    item, so the last branch is never taken. *)
Definition determine_setting {K} (counter : Counter K) (default : K) : K :=
  if negb (truthy counter) then default
  else match most_common1 counter with
       | (most_common, _) :: _ => most_common
       | [] => default
       end.

(** ** Rendering *)

Definition str_of_int (n : Z) : text :=
  lit (NilZero.string_of_int (Z.to_int n)).

Definition str_of_indent_style (s : IndentStyle) : text :=
  match s with tab => lit "tab" | space => lit "space" end.
Definition str_of_eol (e : Eol) : text :=
  match e with crlf => lit "crlf" | cr => lit "cr" | lf => lit "lf" end.
Definition str_of_charset (c : Charset) : text :=
  match c with
  | utf_8 => lit "utf-8" | utf_16 => lit "utf-16" | latin_1 => lit "latin-1"
  end.

(** [sep.join(lines)] *)
Fixpoint str_join (sep : text) (lines : list text) : text :=
  match lines with
  | [] => []
  | [l] => l
  | l :: ls => l ++ sep ++ str_join sep ls
  end.

(** The initial value of [lines]. *)
Definition preamble : list text :=
  [lit "root = true"; lit "";
   lit "[*]"; lit "charset = utf-8"; lit "end_of_line = lf";
   lit "insert_final_newline = true"; lit "trim_trailing_whitespace = true";
   lit ""].

(** The lines appended for one item of [sorted(aggregated.items())]. *)
Definition section_lines (ext : text) (props : Tallies) : list text :=
  let section := lit "[*" ++ ext ++ lit "]" in
  let indent_style := determine_setting (indent_style_votes props) space in
  let eol := determine_setting (eol_votes props) lf in
  let charset := determine_setting (charset_votes props) utf_8 in
  [section; lit "indent_style = " ++ str_of_indent_style indent_style]
  ++ match indent_style with
     | space =>
         let indent_size := determine_setting (indent_size_votes props) 4%Z in
         [lit "indent_size = " ++ str_of_int indent_size]
     | tab => [lit "indent_size = tab"]
     end
  ++ [lit "end_of_line = " ++ str_of_eol eol;
      lit "charset = " ++ str_of_charset charset;
      lit ""].

Definition generate_editorconfig (aggregated : dict Tallies) : text :=
  let lines :=
    fold_left
      (fun lines item =>
         if text_eqb (fst item) (lit "") then lines
         else lines ++ section_lines (fst item) (snd item))
      (sorted aggregated) preamble in
  str_join [LF] lines.

(** ** The scan of [main] *)

Inductive outcome :=
| Exit (status : Z)
| Written (content : text).

Section Run.
(** The host: byte order, files, libmagic's [from_file] ([None] when it
    raises), [os.path.splitext] and [str.lower], whether [.editorconfig]
    exists, whether libmagic can be initialized and whether the file can
    be written. *)
Variable host_big_endian : bool.
Variable fs : text -> option (list byte).
Variable from_file : text -> option text.
Variable splitext : text -> text * text.
Variable lower : text -> text.
Variable editorconfig_exists : bool.
Variable magic_available : bool.
Variable write_succeeds : bool.

Definition is_binary_file (filepath : text) : bool :=
  match from_file filepath with
  | Some file_mime => negb (startswith (lit "text/") file_mime)
  | None => true
  end.

Definition get_file_extension (filepath : text) : text :=
  lower (snd (splitext filepath)).

(** [props['indent_style'] and props['eol']] as a condition. *)
Definition identifiable (props : FileProperties) : bool :=
  match indent_style props, eol props with
  | Some _, Some _ => true
  | _, _ => false
  end.

(** One iteration of the loop over [files_to_scan]. *)
Definition scan_file (file_properties : dict (list FileProperties))
    (filepath : text) : dict (list FileProperties) :=
  if is_binary_file filepath then file_properties
  else
    let ext := get_file_extension filepath in
    let props := analyze_file host_big_endian fs filepath in
    if identifiable props
    then dict_update [] ext (fun l => l ++ [props]) file_properties
    else file_properties.

(** [files_to_scan] is a set: the list is the order in which this run
    iterates over it. *)
Definition scan (files_to_scan : list text) : dict (list FileProperties) :=
  fold_left scan_file files_to_scan [].

(** The files of a scan whose record is kept, and the records that a scan
    in the order [files] appends for an extension. *)
Definition kept (filepath : text) : bool :=
  negb (is_binary_file filepath)
  && identifiable (analyze_file host_big_endian fs filepath).

Definition contributions (ext : text) (files : list text)
  : list FileProperties :=
  flat_map (fun f => if kept f && text_eqb ext (get_file_extension f)
                     then [analyze_file host_big_endian fs f] else [])
           files.

Definition editorconfig_content (files_to_scan : list text) : text :=
  generate_editorconfig (aggregate_properties (scan files_to_scan)).

Definition main (force : bool) (files_to_scan : list text) : outcome :=
  if editorconfig_exists && negb force then Exit 1
  else if negb magic_available then Exit 1
  else if write_succeeds then Written (editorconfig_content files_to_scan)
  else Exit 1.
End Run.

(** ** Notions of the specification *)

(** The line terminators of a text from left to right, CR LF being one. *)
Fixpoint terminators (t : text) : list Eol :=
  match t with
  | [] => []
  | c :: t' =>
      if N.eqb c CR then
        match t' with
        | d :: t'' => if N.eqb d LF then crlf :: terminators t''
                      else cr :: terminators t'
        | [] => [cr]
        end
      else if N.eqb c LF then lf :: terminators t'
      else terminators t'
  end.

(** Number of terminators of a kind. *)
Definition occurrences (e : Eol) (t : text) : nat :=
  count_occ Eol_eq_dec (terminators t) e.

(** The fixed order of the candidates: crlf, cr, lf. *)
Definition eol_rank (e : Eol) : nat :=
  match e with crlf => 0 | cr => 1 | lf => 2 end.

(** The charset that decodes [raw] first, with the decoded text. *)
Definition detected (host_big_endian : bool) (raw : list byte)
  : Charset * text :=
  match decode_utf8 raw with
  | Some t => (utf_8, t)
  | None =>
      match decode_utf16 host_big_endian raw with
      | Some t => (utf_16, t)
      | None => (latin_1, decode_latin1 raw)
      end
  end.

(** What the analyzer stores for a decoded text. *)
Definition analyzed (cs : Charset) (t : text) : FileProperties :=
  let style :=
    match indent_counter t with
    | [] => None
    | x :: xs => Some (fst (max_item x xs))
    end in
  let size :=
    match style, indent_sizes t with
    | Some space, [w] => Some w
    | Some space, _ :: _ :: _ => Some (math_gcd (indent_sizes t))
    | _, _ => None
    end in
  mkProps style size
          (Some (fst (max_item (crlf, crlf_count t)
                               [(cr, cr_count t); (lf, lf_count t)])))
          (Some cs).

(** The first maximum of the three counts of [eol_counter]. *)
Definition dominant_eol (t : text) : Eol :=
  fst (max_item (crlf, crlf_count t) [(cr, cr_count t); (lf, lf_count t)]).

(** [c.update([v])] for each [v] of [vs] in turn, and the counter that
    this gives from an empty one. *)
Definition counter_update {K} `{EqDec K} (vs : list K) (c : Counter K)
  : Counter K :=
  fold_left (fun c v => counter_incr v c) vs c.

Definition tally {K} `{EqDec K} (vs : list K) : Counter K :=
  counter_update vs [].

Definition keys {K} (c : Counter K) : list K := map fst c.

(** [w] is the most frequent value of [vs], and the first encountered
    among the most frequent: no value is more frequent, and every value
    met before the first [w] is strictly less frequent. *)
Definition is_mode_first {K} `{EqDec K} (vs : list K) (w : K) : Prop :=
  (forall v, count_occ eq_dec vs v <= count_occ eq_dec vs w)
  /\ exists pre post,
      vs = pre ++ w :: post /\ ~ In w pre
      /\ forall v, In v pre -> count_occ eq_dec vs v < count_occ eq_dec vs w.

(** A line is blank when it has only tabs and spaces (or nothing). *)
Definition is_blank (line : text) : bool := forallb (in_chars [TAB; SP]) line.

(** The leading run of tabs and spaces of a line. *)
Fixpoint leading_run (line : text) : text :=
  match line with
  | c :: line' => if in_chars [TAB; SP] c then c :: leading_run line' else []
  | [] => []
  end.

(** The vote of a line: none for a blank line and for a line without
    leading tab or space, otherwise the style of the first character of
    its leading run. *)
Definition line_vote (line : text) : option IndentStyle :=
  if is_blank line then None
  else match leading_run line with
       | c :: _ => if N.eqb c TAB then Some tab else Some space
       | [] => None
       end.

(** The width that a line voting for spaces records. *)
Definition line_width (line : text) : Z := Z.of_nat (length (leading_run line)).

(** The votes of the lines of a text, in the order of the lines, and the
    widths recorded with the space votes. *)
Definition votes_of (lines : list text) : list IndentStyle :=
  flat_map (fun l => match line_vote l with Some s => [s] | None => [] end)
           lines.
Definition widths_of (lines : list text) : list Z :=
  flat_map (fun l => match line_vote l with
                     | Some space => [line_width l]
                     | _ => []
                     end) lines.

Definition votes (t : text) : list IndentStyle := votes_of (splitlines t).
Definition widths (t : text) : list Z := widths_of (splitlines t).

Definition tab_votes (t : text) : nat := count_occ eq_dec (votes t) tab.
Definition space_votes (t : text) : nat := count_occ eq_dec (votes t) space.

(** [g] is the greatest common divisor of the numbers [ws]. *)
Definition is_gcd_of (ws : list Z) (g : Z) : Prop :=
  (0 <= g)%Z
  /\ (forall w, In w ws -> (g | w)%Z)
  /\ (forall d, (forall w, In w ws -> (d | w)%Z) -> (d | g)%Z).

(** The values that the records contribute for a field: the non-null
    ones, in the order of the records. *)
Definition non_null {A} (field : FileProperties -> option A)
    (records : list FileProperties) : list A :=
  flat_map (fun p => match field p with Some v => [v] | None => [] end)
           records.

(** The setting selected from the contributed values [vs]: the default
    when there is none, otherwise the most frequent, the first encountered
    winning a tie. *)
Definition selected {K} `{EqDec K} (vs : list K) (default : K) (r : K)
  : Prop :=
  (vs = [] -> r = default) /\ (vs <> [] -> is_mode_first vs r).

(** [indent_size] as [if value:] sees it: 0 is false like [None]. *)
Definition truthy_size (props : FileProperties) : option Z :=
  match indent_size props with
  | Some v => if (v =? 0)%Z then None else Some v
  | None => None
  end.

(** The votes of one record, cast on the counters of its extension. *)
Definition cast (props : FileProperties) (a : Tallies) : Tallies :=
  let a1 := match indent_style props with
            | Some v => vote_indent_style v a | None => a end in
  let a2 := match indent_size props with
            | Some v => if (v =? 0)%Z then a1 else vote_indent_size v a1
            | None => a1 end in
  let a3 := match eol props with
            | Some v => vote_eol v a2 | None => a2 end in
  match charset props with
  | Some v => vote_charset v a3 | None => a3 end.

(** The records that [file_properties] holds for an extension. *)
Definition records_of (file_properties : dict (list FileProperties))
    (ext : text) : list FileProperties :=
  flat_map (fun item => if text_eqb ext (fst item) then snd item else [])
           file_properties.

(** Lines, each ended by a line feed. *)
Definition unlines (ls : list text) : text :=
  concat (map (fun l => l ++ [LF]) ls).

(** The universal wildcard section with the root declaration. *)
Definition universal_section : text :=
  unlines [lit "root = true"; lit "";
           lit "[*]"; lit "charset = utf-8"; lit "end_of_line = lf";
           lit "insert_final_newline = true";
           lit "trim_trailing_whitespace = true"].

(** The section of an extension: selector, [indent_style], [indent_size]
    (the number for spaces, the word tab for tabs), [end_of_line],
    [charset]. *)
Definition section_text (ext : text) (a : Tallies) : text :=
  let style := determine_setting (indent_style_votes a) space in
  unlines
    [lit "[*" ++ ext ++ lit "]";
     lit "indent_style = " ++ str_of_indent_style style;
     lit "indent_size = "
       ++ match style with
          | space => str_of_int (determine_setting (indent_size_votes a) 4%Z)
          | tab => lit "tab"
          end;
     lit "end_of_line = " ++ str_of_eol (determine_setting (eol_votes a) lf);
     lit "charset = "
       ++ str_of_charset (determine_setting (charset_votes a) utf_8)].

(** The lexicographic order of strings. *)
Definition text_lt (s t : text) : Prop := text_ltb s t = true.

(** Items in the order of their keys, an equal key allowed. *)
Definition key_le {V} (x y : text * V) : Prop :=
  text_ltb (fst y) (fst x) = false.

(** The extensions that get a section, in the order of the sections. *)
Definition extensions (aggregated : dict Tallies) : list text :=
  filter (fun e => negb (text_eqb e (lit ""))) (map fst (sorted aggregated)).

(** A key with the highest count of a counter. *)
Definition is_max {K} `{EqDec K} (c : Counter K) (k : K) : Prop :=
  In k (keys c)
  /\ forall k', In k' (keys c) -> (counter_get k' c <= counter_get k c)%Z.

(** A counter without a tie: one key at most has the highest count. *)
Definition untied {K} `{EqDec K} (c : Counter K) : Prop :=
  forall k1 k2, is_max c k1 -> is_max c k2 -> k1 = k2.

Definition no_tie (a : Tallies) : Prop :=
  untied (indent_style_votes a) /\ untied (indent_size_votes a)
  /\ untied (eol_votes a) /\ untied (charset_votes a).

(** Counters with the same keys and the same counts, in whatever order. *)
Definition same_counts {K} `{EqDec K} (c1 c2 : Counter K) : Prop :=
  (forall k, In k (keys c1) <-> In k (keys c2))
  /\ forall k, counter_get k c1 = counter_get k c2.

(** A record with a value that votes. *)
Definition has_vote (p : FileProperties) : bool :=
  match indent_style p, truthy_size p, eol p, charset p with
  | None, None, None, None => false
  | _, _, _, _ => true
  end.

(** ** A host for the examples

    Files given by name and content, every file reported as text, POSIX
    paths with ASCII names. *)

Definition demo_fs (files : list (string * string)) (filepath : text)
  : option (list byte) :=
  option_map (fun kv => list_byte_of_string (snd kv))
             (find (fun kv => text_eqb (lit (fst kv)) filepath) files).

Definition demo_from_file (filepath : text) : option text :=
  Some (lit "text/plain").

(** [t.rfind(c)]: the index of the last [c], -1 without one. *)
Fixpoint rfind_from (c : N) (t : text) (i last : Z) : Z :=
  match t with
  | [] => last
  | d :: t' => rfind_from c t' (i + 1)%Z (if N.eqb d c then i else last)
  end.
Definition rfind (c : N) (t : text) : Z := rfind_from c t 0%Z (-1)%Z.

(** [posixpath.splitext]: the extension starts at the last dot of the last
    component, leading dots of the component apart. *)
Definition posix_splitext (p : text) : text * text :=
  let sepIndex := rfind 47%N p in
  let dotIndex := rfind 46%N p in
  if (sepIndex <? dotIndex)%Z then
    let filename :=
      skipn (Z.to_nat (sepIndex + 1)) (firstn (Z.to_nat dotIndex) p) in
    if existsb (fun ch => negb (N.eqb ch 46%N)) filename
    then (firstn (Z.to_nat dotIndex) p, skipn (Z.to_nat dotIndex) p)
    else (p, [])
  else (p, []).

(** [str.lower] on ASCII. *)
Definition ascii_lower (t : text) : text :=
  map (fun c => if (65 <=? c)%N && (c <=? 90)%N then (c + 32)%N else c) t.

Definition nl : string := String (ascii_of_nat 10) EmptyString.
Definition crs : string := String (ascii_of_nat 13) EmptyString.
Definition tabs : string := String (ascii_of_nat 9) EmptyString.

(** The scan and the content on the host of the examples. *)
Definition demo_scan (files : list (string * string)) (order : list string)
  : dict (list FileProperties) :=
  scan false (demo_fs files) demo_from_file posix_splitext ascii_lower
       (map lit order).
Definition demo_content (files : list (string * string))
    (order : list string) : text :=
  editorconfig_content false (demo_fs files) demo_from_file posix_splitext
                       ascii_lower (map lit order).

(** [main] on the host of the examples, where [.editorconfig] exists and
    can be written. *)
Definition demo_main (files : list (string * string)) (force : bool)
    (order : list string) : outcome :=
  main false (demo_fs files) demo_from_file posix_splitext ascii_lower
       true true true force (map lit order).

(** Files of the examples. *)
Definition notes_files : list (string * string) :=
  [("notes.txt", "x" ++ nl ++ "y" ++ nl)]%string.

Definition empty_files : list (string * string) := [("empty.txt", "")]%string.

Definition unterminated_files : list (string * string) :=
  [("one.py", "  x")]%string.

Definition dos_files : list (string * string) :=
  [("dos.txt", "x" ++ crs ++ nl ++ "y" ++ crs ++ nl ++ "z" ++ nl)]%string.

Definition mixed_files : list (string * string) :=
  [("mixed.py", "a" ++ nl ++ "  b" ++ nl ++ "    c" ++ nl)]%string.

Definition tie_in_file : list (string * string) :=
  [("tie.c", "a" ++ nl ++ tabs ++ "b" ++ nl ++ "  c" ++ nl)]%string.

Definition tie_files : list (string * string) :=
  [("a.c", "x" ++ nl ++ tabs ++ "y" ++ nl);
   ("b.c", "x" ++ nl ++ "  y" ++ nl)]%string.

Definition agreeing_files : list (string * string) :=
  [("a.py", "x" ++ nl ++ "    y" ++ nl);
   ("b.py", "z" ++ nl ++ "    t" ++ nl)]%string.

Definition x_records : list FileProperties :=
  [mkProps (Some space) (Some 4%Z) (Some lf) (Some utf_8);
   mkProps (Some tab) None (Some crlf) (Some utf_8);
   mkProps (Some space) (Some 2%Z) (Some lf) (Some latin_1)].


(** ** Further notions *)

(** [sum(c.values())] *)
Definition counter_total {K} (c : Counter K) : Z :=
  fold_right (fun kv s => (snd kv + s)%Z) 0%Z c.

(** A record whose [indent_size] passes [if value:]. *)
Definition has_size (p : FileProperties) : bool :=
  match indent_size p with
  | Some v => negb (v =? 0)%Z
  | None => false
  end.

Definition has_field {A} (field : FileProperties -> option A)
    (p : FileProperties) : bool :=
  match field p with Some _ => true | None => false end.

(** ** The files to scan *)

(** Directories that the walk of [main] does not enter. *)
Definition EXCLUDED_DIRS : list text :=
  [lit ".git"; lit "node_modules"; lit "__pycache__"; lit "venv";
   lit "build"; lit "dist"].

(** [d in EXCLUDED_DIRS] *)
Definition excluded (d : text) : bool := existsb (text_eqb d) EXCLUDED_DIRS.

(** What [os.walk] finds in a directory: the names of the entries that are
    not directories, and the directories with what is in them.  A link to
    a directory and a directory that cannot be listed are not entered by
    [os.walk]; they count as empty directories. *)
#[local] Unset Elimination Schemes.
Inductive tree := Dir (files : list text) (dirs : list (text * tree)).
#[local] Set Elimination Schemes.

(** [files_to_scan.add(x)]: the set as the list of its elements. *)
Definition set_add (x : text) (s : list text) : list text :=
  if existsb (text_eqb x) s then s else s ++ [x].

Section Collect.
(** The host: [glob.glob] with [recursive=True], [os.path.isfile], the
    directory that a path names if [os.path.isdir] holds, [os.path.join]
    and [os.path.abspath]. *)
Variable glob : text -> list text.
Variable isfile : text -> bool.
Variable dir_at : text -> option tree.
Variable join : text -> text -> text.
Variable abspath : text -> text.

(** The paths [os.path.join(root, file)] of the loop over [os.walk(path)],
    in the order of the walk, where [dirs] is pruned before the walk goes
    down. *)
Fixpoint walk_files (root : text) (t : tree) : list text :=
  match t with
  | Dir files dirs =>
      map (join root) files
      ++ flat_map (fun d => if excluded (fst d) then []
                            else walk_files (join root (fst d)) (snd d))
                  dirs
  end.

(** The body of the loop over [matched]. *)
Definition collect_path (files_to_scan : list text) (path : text)
  : list text :=
  if isfile path then set_add (abspath path) files_to_scan
  else match dir_at path with
       | Some t =>
           fold_left (fun s filepath => set_add (abspath filepath) s)
                     (walk_files path t) files_to_scan
       | None => files_to_scan
       end.

(** The set [files_to_scan] after the loop over [args.paths]. *)
Definition files_to_scan (paths : list text) : list text :=
  fold_left (fun s pattern => fold_left collect_path (glob pattern) s)
            paths [].
End Collect.

(** [g] is the path of a file found below [root] through directories that
    are not excluded. *)
Inductive found_in (join : text -> text -> text)
  : text -> tree -> text -> Prop :=
| found_here root files dirs name :
    In name files ->
    found_in join root (Dir files dirs) (join root name)
| found_below root files dirs name sub g :
    In (name, sub) dirs -> ~ In name EXCLUDED_DIRS ->
    found_in join (join root name) sub g ->
    found_in join root (Dir files dirs) g.

(** [posixpath.join] of two paths. *)
Definition posix_join (a b : text) : text :=
  if startswith [47%N] b then b
  else match rev a with
       | [] => b
       | c :: _ => if N.eqb c 47%N then a ++ b else a ++ [47%N] ++ b
       end.

(** A directory for the examples, named [.] and [node_modules]. *)
Definition demo_tree : tree :=
  Dir [lit "a.py"]
      [(lit "node_modules", Dir [lit "x.js"] []);
       (lit "src", Dir [lit "b.py"] [(lit ".git", Dir [lit "HEAD"] [])])].

Definition demo_glob (pattern : text) : list text := [pattern].
Definition demo_isfile (path : text) : bool :=
  text_eqb path (lit "node_modules/x.js").
Definition demo_dir_at (path : text) : option tree :=
  if text_eqb path (lit ".") then Some demo_tree
  else if text_eqb path (lit "node_modules")
       then Some (Dir [lit "x.js"] [])
       else None.
Definition demo_abspath (path : text) : text := posix_join (lit "/w") path.

Definition demo_files_to_scan (paths : list string) : list text :=
  files_to_scan demo_glob demo_isfile demo_dir_at posix_join demo_abspath
                (map lit paths).

(** A file in UTF-16 with a byte order mark, for the examples. *)
Definition utf16_fs (filepath : text) : option (list byte) :=
  Some [xff; xfe; x41; x00; x0a; x00].

Definition two_entries : dict Tallies :=
  [(lit ".b", mkTallies [(tab, 1%Z)] [] [(lf, 1%Z)] [(utf_8, 1%Z)]);
   (lit ".a", mkTallies [(space, 1%Z)] [(2%Z, 1%Z)] [(crlf, 1%Z)]
                        [(utf_8, 1%Z)])].
(** * Properties *)

(** ** The monad of [analyze_file] *)

Lemma detect_charset_detected be raw p :
  detect_charset be raw p
  = (Return (snd (detected be raw)), set_charset (fst (detected be raw)) p).
Proof.
  unfold detect_charset, detected, try_except, bind, decoded, store, ret, raise.
  destruct (decode_utf8 raw); simpl; [reflexivity|].
  destruct (decode_utf16 be raw); reflexivity.
Qed.

Lemma analyze_file_unreadable be fs filepath :
  fs filepath = None -> analyze_file be fs filepath = init_properties.
Proof.
  intros Hfs. unfold analyze_file, analyze_body, bind, open_read.
  rewrite Hfs. reflexivity.
Qed.

Lemma analyze_file_readable be fs filepath raw :
  fs filepath = Some raw ->
  analyze_file be fs filepath
  = analyzed (fst (detected be raw)) (snd (detected be raw)).
Proof.
  intros Hfs. unfold analyze_file, analyze_body, open_read.
  rewrite Hfs. unfold bind at 1. unfold ret at 1.
  unfold bind at 1. rewrite detect_charset_detected.
  set (t := snd (detected be raw)). set (cs := fst (detected be raw)).
  unfold analyzed, eol_counter, most_common1, item0, bind, ret, store; simpl.
  destruct (indent_counter t) as [|x xs]; simpl; [reflexivity|].
  destruct (fst (max_item x xs)); simpl; [reflexivity|].
  destruct (indent_sizes t) as [|w [|w' ws]]; reflexivity.
Qed.

(** ** Line terminators *)

Lemma text_ind2 (P : text -> Prop) :
  P [] -> (forall c, P [c]) ->
  (forall c d t, P t -> P (d :: t) -> P (c :: d :: t)) ->
  forall t, P t.
Proof.
  intros H0 H1 H2 t.
  assert (P t /\ forall c, P (c :: t)) as [Ht _]; [|exact Ht].
  induction t as [|d t [IHt IHc]]; split; auto.
Qed.

Lemma str_count_char c t :
  str_count [c] t = Z.of_nat (count_occ N.eq_dec t c).
Proof.
  unfold str_count.
  induction t as [|a t IH]; [reflexivity|].
  cbn [count_from startswith length Nat.sub count_occ].
  rewrite IH. destruct (N.eqb_spec c a) as [->|Hne].
  - destruct (N.eq_dec a a); [|contradiction]. cbn [andb]. lia.
  - destruct (N.eq_dec a c); [congruence|]. reflexivity.
Qed.

Lemma crlf_count_cons_cr_lf t :
  crlf_count (CR :: LF :: t) = (1 + crlf_count t)%Z.
Proof. reflexivity. Qed.

Lemma crlf_count_cons_other c t :
  startswith [CR; LF] (c :: t) = false ->
  crlf_count (c :: t) = crlf_count t.
Proof.
  intros Hs. unfold crlf_count, str_count.
  cbn [count_from]. rewrite Hs. reflexivity.
Qed.

Lemma crlf_count_single c : crlf_count [c] = 0%Z.
Proof.
  unfold crlf_count, str_count. cbn [count_from startswith].
  rewrite andb_false_r. reflexivity.
Qed.

Lemma startswith_crlf c d t :
  startswith [CR; LF] (c :: d :: t) = N.eqb c CR && N.eqb d LF.
Proof.
  cbn [startswith]. rewrite andb_true_r.
  rewrite (N.eqb_sym CR c), (N.eqb_sym LF d). reflexivity.
Qed.

Ltac eol_cases :=
  repeat match goal with
         | |- context [N.eqb ?a ?b] =>
             destruct (N.eqb_spec a b); try subst; try discriminate
         | |- context [Eol_eq_dec ?a ?b] =>
             destruct (Eol_eq_dec a b); try discriminate; try contradiction
         end.

Lemma terminators_cons2 c d t :
  terminators (c :: d :: t)
  = if N.eqb c CR then
      if N.eqb d LF then crlf :: terminators t
      else cr :: terminators (d :: t)
    else if N.eqb c LF then lf :: terminators (d :: t)
    else terminators (d :: t).
Proof. reflexivity. Qed.

Lemma terminators_single c :
  terminators [c]
  = if N.eqb c CR then [cr] else if N.eqb c LF then [lf] else [].
Proof. reflexivity. Qed.

Lemma terminators_cons_lf t : terminators (LF :: t) = lf :: terminators t.
Proof. reflexivity. Qed.

Lemma occurrences_crlf t :
  crlf_count t = Z.of_nat (occurrences crlf t).
Proof.
  induction t as [|c|c d t IH1 IH2] using text_ind2.
  - reflexivity.
  - rewrite crlf_count_single. unfold occurrences.
    rewrite terminators_single. eol_cases; reflexivity.
  - unfold occurrences in *. rewrite terminators_cons2.
    destruct (N.eqb c CR && N.eqb d LF) eqn:Hs.
    + apply andb_true_iff in Hs as [Hc Hd]. rewrite Hc, Hd.
      apply N.eqb_eq in Hc, Hd. subst.
      rewrite crlf_count_cons_cr_lf, IH1. cbn [count_occ].
      eol_cases. lia.
    + rewrite crlf_count_cons_other, IH2
        by (rewrite startswith_crlf; exact Hs).
      destruct (N.eqb c CR); cbn [andb] in Hs.
      * rewrite Hs. cbn [count_occ]. eol_cases. reflexivity.
      * destruct (N.eqb c LF); [|reflexivity].
        cbn [count_occ]. eol_cases. reflexivity.
Qed.

Lemma occurrences_cr t :
  str_count [CR] t = Z.of_nat (occurrences crlf t + occurrences cr t).
Proof.
  rewrite str_count_char. f_equal.
  induction t as [|c|c d t IH1 IH2] using text_ind2.
  - reflexivity.
  - unfold occurrences. rewrite terminators_single. cbn [count_occ].
    destruct (N.eq_dec c CR) as [->|Hc]; [reflexivity|].
    destruct (N.eqb_spec c CR); [contradiction|].
    destruct (N.eqb c LF); reflexivity.
  - unfold occurrences in *. rewrite terminators_cons2.
    change (count_occ N.eq_dec (c :: d :: t) CR)
      with (if N.eq_dec c CR then S (count_occ N.eq_dec (d :: t) CR)
            else count_occ N.eq_dec (d :: t) CR).
    rewrite IH2.
    destruct (N.eq_dec c CR) as [->|Hc].
    + change (CR =? CR)%N with true. cbv iota.
      destruct (N.eqb_spec d LF) as [->|Hd].
      * rewrite terminators_cons_lf.
        cbn [count_occ]. eol_cases. lia.
      * cbn [count_occ]. eol_cases. lia.
    + destruct (N.eqb_spec c CR); [contradiction|].
      destruct (N.eqb c LF); [|reflexivity].
      cbn [count_occ]. eol_cases. reflexivity.
Qed.

Lemma occurrences_lf t :
  str_count [LF] t = Z.of_nat (occurrences crlf t + occurrences lf t).
Proof.
  rewrite str_count_char. f_equal.
  induction t as [|c|c d t IH1 IH2] using text_ind2.
  - reflexivity.
  - unfold occurrences. rewrite terminators_single. cbn [count_occ].
    destruct (N.eq_dec c LF) as [->|Hc]; [reflexivity|].
    destruct (N.eqb c CR); [reflexivity|].
    destruct (N.eqb_spec c LF); [contradiction|reflexivity].
  - unfold occurrences in *. rewrite terminators_cons2.
    change (count_occ N.eq_dec (c :: d :: t) LF)
      with (if N.eq_dec c LF then S (count_occ N.eq_dec (d :: t) LF)
            else count_occ N.eq_dec (d :: t) LF).
    rewrite IH2.
    destruct (N.eq_dec c LF) as [->|Hc].
    + change (LF =? CR)%N with false. change (LF =? LF)%N with true.
      cbv iota. cbn [count_occ]. eol_cases. lia.
    + destruct (N.eqb_spec c LF); [contradiction|].
      destruct (N.eqb_spec c CR) as [->|Hc']; [|reflexivity].
      destruct (N.eqb_spec d LF) as [->|Hd].
      *         rewrite terminators_cons_lf.
        cbn [count_occ]. eol_cases. lia.
      * cbn [count_occ]. eol_cases. reflexivity.
Qed.

Lemma cr_count_occurrences t : cr_count t = Z.of_nat (occurrences cr t).
Proof. unfold cr_count. rewrite occurrences_cr, occurrences_crlf. lia. Qed.

Lemma lf_count_occurrences t : lf_count t = Z.of_nat (occurrences lf t).
Proof. unfold lf_count. rewrite occurrences_lf, occurrences_crlf. lia. Qed.

Lemma analyzed_eol cs t : eol (analyzed cs t) = Some (dominant_eol t).
Proof. reflexivity. Qed.

Lemma dominant_eol_max t e' :
  occurrences e' t <= occurrences (dominant_eol t) t.
Proof.
  unfold dominant_eol, max_item. cbn [fold_left snd fst].
  rewrite occurrences_crlf, cr_count_occurrences, lf_count_occurrences.
  destruct (Z.ltb_spec (Z.of_nat (occurrences crlf t))
                       (Z.of_nat (occurrences cr t)));
    cbn [snd fst];
    match goal with
    | |- context [(?a <? ?b)%Z] => destruct (Z.ltb_spec a b)
    end; cbn [snd fst]; destruct e'; lia.
Qed.

Lemma dominant_eol_first t e' :
  occurrences e' t = occurrences (dominant_eol t) t ->
  eol_rank (dominant_eol t) <= eol_rank e'.
Proof.
  unfold dominant_eol, max_item. cbn [fold_left snd fst].
  rewrite occurrences_crlf, cr_count_occurrences, lf_count_occurrences.
  destruct (Z.ltb_spec (Z.of_nat (occurrences crlf t))
                       (Z.of_nat (occurrences cr t)));
    cbn [snd fst];
    match goal with
    | |- context [(?a <? ?b)%Z] => destruct (Z.ltb_spec a b)
    end; cbn [snd fst]; destruct e'; cbn [eol_rank]; lia.
Qed.

Lemma count_occ_all (e e' : Eol) (l : list Eol) :
  Forall (eq e) l ->
  count_occ Eol_eq_dec l e' = if Eol_eq_dec e e' then length l else 0.
Proof.
  induction 1 as [|x l Hx _ IH]; cbn [count_occ length].
  - destruct (Eol_eq_dec e e'); reflexivity.
  - subst x. rewrite IH. destruct (Eol_eq_dec e e'); reflexivity.
Qed.

Lemma only_terminator e t :
  terminators t <> [] -> Forall (eq e) (terminators t) ->
  dominant_eol t = e.
Proof.
  intros Hne Hall.
  pose proof (dominant_eol_max t e) as Hmax.
  unfold occurrences in Hmax.
  rewrite (count_occ_all e (dominant_eol t) _ Hall) in Hmax.
  rewrite (count_occ_all e e _ Hall) in Hmax.
  destruct (Eol_eq_dec e e); [|contradiction].
  destruct (Eol_eq_dec e (dominant_eol t)); [congruence|].
  destruct (terminators t); [contradiction|]. cbn [length] in Hmax. lia.
Qed.

Lemma terminators_nil t :
  ~ In CR t -> ~ In LF t -> terminators t = [].
Proof.
  induction t as [|c t IH]; [reflexivity|].
  intros Hcr Hlf. cbn [In] in Hcr, Hlf. cbn [terminators].
  destruct (N.eqb_spec c CR); [exfalso; auto|].
  destruct (N.eqb_spec c LF); [exfalso; auto|].
  apply IH; auto.
Qed.

Lemma dominant_eol_no_terminator t :
  terminators t = [] -> dominant_eol t = crlf.
Proof.
  intros Hnil. unfold dominant_eol.
  rewrite occurrences_crlf, cr_count_occurrences, lf_count_occurrences.
  unfold occurrences. rewrite Hnil. reflexivity.
Qed.

(** C3: for a decoded text with at least one line terminator, the [eol] of
    the record is a terminator with the highest number of occurrences
    (CR LF counted as one terminator, CR and LF only outside CR LF), the
    first such in the order crlf, cr, lf; so a text with only LF
    terminators gives lf, only CR LF gives crlf, only CR gives cr, and crlf
    is the answer whenever CR LF is strictly the most frequent. *)
Theorem eol_is_dominant_terminator be fs filepath raw :
  fs filepath = Some raw ->
  let t := snd (detected be raw) in
  terminators t <> [] ->
  exists e,
    eol (analyze_file be fs filepath) = Some e
    /\ (forall e', occurrences e' t <= occurrences e t)
    /\ (forall e', occurrences e' t = occurrences e t ->
                   eol_rank e <= eol_rank e')
    /\ (Forall (eq lf) (terminators t) -> e = lf)
    /\ (Forall (eq crlf) (terminators t) -> e = crlf)
    /\ (Forall (eq cr) (terminators t) -> e = cr)
    /\ (occurrences cr t < occurrences crlf t ->
        occurrences lf t < occurrences crlf t -> e = crlf).
Proof.
  intros Hfs t Hne. exists (dominant_eol t).
  rewrite (analyze_file_readable be fs filepath raw Hfs), analyzed_eol.
  repeat split.
  - apply dominant_eol_max.
  - apply dominant_eol_first.
  - apply only_terminator; assumption.
  - apply only_terminator; assumption.
  - apply only_terminator; assumption.
  - intros Hcr Hlf. pose proof (dominant_eol_max t crlf) as Hmax.
    destruct (dominant_eol t); [reflexivity|lia|lia].
Qed.

(** C2 as the code has it: a decoded text without CR and LF, the empty
    text included, gives the record [eol] crlf, the first key of the
    counter, and not lf. *)
Theorem eol_without_terminator_is_crlf be fs filepath raw :
  fs filepath = Some raw ->
  let t := snd (detected be raw) in
  ~ In CR t -> ~ In LF t ->
  eol (analyze_file be fs filepath) = Some crlf.
Proof.
  intros Hfs t Hcr Hlf.
  rewrite (analyze_file_readable be fs filepath raw Hfs), analyzed_eol.
  f_equal. apply dominant_eol_no_terminator, terminators_nil; assumption.
Qed.

(** ** Counters *)

Section CounterFacts.
Context {K : Type} `{EqDec K}.
Implicit Types (c : Counter K) (k : K) (vs : list K).

Lemma counter_get_set k' k v c :
  counter_get k' (counter_set k v c)
  = if eq_dec k' k then v else counter_get k' c.
Proof.
  induction c as [|[k0 n] c IH]; cbn [counter_set counter_get].
  - reflexivity.
  - destruct (eq_dec k k0) as [->|Hk]; cbn [counter_get].
    + destruct (eq_dec k' k0); reflexivity.
    + rewrite IH. destruct (eq_dec k' k0) as [->|]; [|reflexivity].
      destruct (eq_dec k0 k); [congruence|reflexivity].
Qed.

Lemma counter_get_incr k' k c :
  counter_get k' (counter_incr k c)
  = (counter_get k' c + if eq_dec k' k then 1 else 0)%Z.
Proof.
  unfold counter_incr. rewrite counter_get_set.
  destruct (eq_dec k' k) as [->|]; lia.
Qed.

Lemma keys_set_old k v c :
  In k (keys c) -> keys (counter_set k v c) = keys c.
Proof.
  induction c as [|[k0 n] c IH]; cbn [counter_set keys map In fst].
  - contradiction.
  - intros Hin. destruct (eq_dec k k0) as [->|Hk]; [reflexivity|].
    cbn [map fst]. f_equal. apply IH.
    destruct Hin as [Heq|Hin]; [congruence|exact Hin].
Qed.

Lemma keys_set_new k v c :
  ~ In k (keys c) -> keys (counter_set k v c) = keys c ++ [k].
Proof.
  induction c as [|[k0 n] c IH]; cbn [counter_set keys map In fst app].
  - reflexivity.
  - intros Hin. destruct (eq_dec k k0) as [->|Hk]; [tauto|].
    cbn [map fst]. f_equal. apply IH. tauto.
Qed.

Lemma keys_incr k c :
  exists extra, keys (counter_incr k c) = keys c ++ extra
                /\ forall k', In k' extra -> k' = k.
Proof.
  destruct (in_dec eq_dec k (keys c)) as [Hin|Hin].
  - exists []. unfold counter_incr. rewrite keys_set_old, app_nil_r by auto.
    split; [reflexivity|contradiction].
  - exists [k]. unfold counter_incr. rewrite keys_set_new by auto.
    split; [reflexivity|]. intros k' [->|[]]. reflexivity.
Qed.

Lemma In_keys_incr k' k c :
  In k' (keys (counter_incr k c)) <-> k' = k \/ In k' (keys c).
Proof.
  unfold counter_incr.
  destruct (in_dec eq_dec k (keys c)) as [Hin|Hin].
  - rewrite keys_set_old by auto. split; [auto|]. intros [->|]; auto.
  - rewrite keys_set_new by auto. rewrite in_app_iff. cbn [In].
    split; [intros [|[|[]]]; auto|intros [|]; auto].
Qed.

Lemma NoDup_keys_incr k c :
  NoDup (keys c) -> NoDup (keys (counter_incr k c)).
Proof.
  intros Hnd. unfold counter_incr.
  destruct (in_dec eq_dec k (keys c)) as [Hin|Hin].
  - rewrite keys_set_old; auto.
  - rewrite keys_set_new by auto.
    apply NoDup_app; [assumption|repeat constructor; intros []|].
    intros x Hx [<-|[]]. contradiction.
Qed.

Lemma counter_update_app vs1 vs2 c :
  counter_update (vs1 ++ vs2) c = counter_update vs2 (counter_update vs1 c).
Proof. apply fold_left_app. Qed.

Lemma counter_get_update k vs c :
  counter_get k (counter_update vs c)
  = (counter_get k c + Z.of_nat (count_occ eq_dec vs k))%Z.
Proof.
  revert c. induction vs as [|v vs IH]; intros c;
    cbn [counter_update fold_left].
  - cbn. lia.
  - fold (counter_update vs (counter_incr v c)). rewrite IH, counter_get_incr.
    cbn [count_occ]. destruct (eq_dec k v) as [->|Hk].
    + destruct (eq_dec v v); [|contradiction]. lia.
    + destruct (eq_dec v k); [congruence|]. lia.
Qed.

Lemma keys_update vs c :
  exists extra, keys (counter_update vs c) = keys c ++ extra.
Proof.
  revert c. induction vs as [|v vs IH]; intros c;
    cbn [counter_update fold_left].
  - exists []. now rewrite app_nil_r.
  - fold (counter_update vs (counter_incr v c)).
    destruct (IH (counter_incr v c)) as [e1 He1].
    destruct (keys_incr v c) as (e0 & He0 & _).
    exists (e0 ++ e1). rewrite He1, He0, app_assoc. reflexivity.
Qed.

Lemma In_keys_update k vs c :
  In k (keys (counter_update vs c)) <-> In k vs \/ In k (keys c).
Proof.
  revert c. induction vs as [|v vs IH]; intros c;
    cbn [counter_update fold_left In].
  - tauto.
  - fold (counter_update vs (counter_incr v c)). rewrite IH, In_keys_incr.
    intuition congruence.
Qed.

Lemma NoDup_keys_update vs c :
  NoDup (keys c) -> NoDup (keys (counter_update vs c)).
Proof.
  revert c. induction vs as [|v vs IH]; intros c Hnd; [exact Hnd|].
  apply IH, NoDup_keys_incr, Hnd.
Qed.

Lemma counter_get_In k n c :
  NoDup (keys c) -> In (k, n) c -> counter_get k c = n.
Proof.
  induction c as [|[k0 n0] c IH]; cbn [keys map fst In counter_get].
  - contradiction.
  - intros Hnd [Heq|Hin].
    + injection Heq as -> ->. destruct (eq_dec k k); [reflexivity|tauto].
    + inversion Hnd as [|? ? Hnotin Hnd']; subst.
      destruct (eq_dec k k0) as [->|]; [|auto].
      exfalso. apply Hnotin. change k0 with (fst (k0, n)).
      apply in_map, Hin.
Qed.

Lemma max_item_cons (best y : K * Z) xs :
  max_item best (y :: xs)
  = max_item (if (snd best <? snd y)%Z then y else best) xs.
Proof. reflexivity. Qed.

Lemma max_item_split xs : forall c1 best c2,
  (forall y, In y c1 -> (snd y < snd best)%Z) ->
  (forall y, In y c2 -> (snd y <= snd best)%Z) ->
  exists c1' c2',
    c1 ++ best :: c2 ++ xs = c1' ++ max_item best xs :: c2'
    /\ (forall y, In y c1' -> (snd y < snd (max_item best xs))%Z)
    /\ (forall y, In y c2' -> (snd y <= snd (max_item best xs))%Z).
Proof.
  induction xs as [|y xs IH]; intros c1 best c2 H1 H2.
  - exists c1, c2. rewrite app_nil_r. auto.
  - rewrite max_item_cons.
    destruct (Z.ltb_spec (snd best) (snd y)) as [Hlt|Hge].
    + destruct (IH (c1 ++ best :: c2) y []) as (c1' & c2' & Heq & Hs).
      * intros z Hz. apply in_app_iff in Hz as [Hz|[<-|Hz]];
          [specialize (H1 z Hz)|idtac|specialize (H2 z Hz)]; lia.
      * intros z [].
      * exists c1', c2'. split; [|exact Hs].
        rewrite <- Heq. cbn [app]. rewrite <- app_assoc. reflexivity.
    + destruct (IH c1 best (c2 ++ [y])) as (c1' & c2' & Heq & Hs).
      * exact H1.
      * intros z Hz. apply in_app_iff in Hz as [Hz|[<-|[]]];
          [apply H2, Hz|lia].
      * exists c1', c2'. split; [|exact Hs].
        rewrite <- Heq, <- app_assoc. reflexivity.
Qed.

Lemma max_item_first x xs :
  exists c1 c2,
    x :: xs = c1 ++ max_item x xs :: c2
    /\ (forall y, In y c1 -> (snd y < snd (max_item x xs))%Z)
    /\ (forall y, In y c2 -> (snd y <= snd (max_item x xs))%Z).
Proof.
  apply (max_item_split xs [] x []); intros y [].
Qed.

Lemma first_occurrence k vs :
  In k vs -> exists pre post, vs = pre ++ k :: post /\ ~ In k pre.
Proof.
  induction vs as [|v vs IH]; [intros []|].
  intros Hin. destruct (eq_dec v k) as [->|Hne].
  - exists [], vs. split; [reflexivity|intros []].
  - destruct Hin as [|Hin]; [contradiction|].
    destruct (IH Hin) as (pre & post & -> & Hpre).
    exists (v :: pre), post. split; [reflexivity|].
    intros [|]; auto.
Qed.

Lemma NoDup_split_unique (l1 l2 l1' l2' : list K) k :
  NoDup (l1 ++ k :: l2) -> l1 ++ k :: l2 = l1' ++ k :: l2' -> l1 = l1'.
Proof.
  revert l1'. induction l1 as [|a l1 IH]; intros l1' Hnd Heq.
  - destruct l1' as [|b l1']; [reflexivity|].
    cbn [app] in *. injection Heq as <- Heq.
    inversion Hnd as [|? ? Hnotin _]; subst.
    exfalso. apply Hnotin. apply in_elt.
  - destruct l1' as [|b l1']; cbn [app] in *.
    + injection Heq as -> Heq.
      inversion Hnd as [|? ? Hnotin _]; subst.
      exfalso. apply Hnotin. apply in_elt.
    + injection Heq as <- Heq. f_equal.
      inversion Hnd; subst. eapply IH; eauto.
Qed.

Lemma In_keys_exists k c : In k (keys c) -> exists n, In (k, n) c.
Proof.
  unfold keys. rewrite in_map_iff. intros ([k' n] & <- & Hin).
  exists n. exact Hin.
Qed.

Lemma NoDup_keys_tally vs : NoDup (keys (tally vs)).
Proof. apply NoDup_keys_update. constructor. Qed.

Lemma counter_get_tally k vs :
  counter_get k (tally vs) = Z.of_nat (count_occ eq_dec vs k).
Proof. unfold tally. rewrite counter_get_update. reflexivity. Qed.

Lemma In_tally k n vs :
  In (k, n) (tally vs) -> In k vs /\ n = Z.of_nat (count_occ eq_dec vs k).
Proof.
  intros Hin. split.
  - assert (In k (keys (tally vs))) as Hk
        by (change k with (fst (k, n)); apply in_map, Hin).
    apply In_keys_update in Hk as [Hk|[]]. exact Hk.
  - rewrite <- counter_get_tally. symmetry.
    apply counter_get_In; [apply NoDup_keys_tally|exact Hin].
Qed.

Lemma tally_nil_iff vs : tally vs = [] <-> vs = [].
Proof.
  split; [|intros ->; reflexivity].
  destruct vs as [|v vs]; [reflexivity|]. intros Hnil.
  assert (In v (keys (tally (v :: vs)))) as Hin
      by (apply In_keys_update; left; left; reflexivity).
  rewrite Hnil in Hin. destruct Hin.
Qed.

(** [most_common(1)] of the counter of [vs]: the first value among the
    most frequent ones, with its number of occurrences. *)
Lemma most_common1_tally vs :
  vs <> [] ->
  exists w,
    most_common1 (tally vs) = [(w, Z.of_nat (count_occ eq_dec vs w))]
    /\ is_mode_first vs w.
Proof.
  intros Hne.
  destruct (tally vs) as [|x xs] eqn:Hc;
    [apply tally_nil_iff in Hc; contradiction|].
  destruct (max_item_first x xs) as (c1 & c2 & Heq & H1 & H2).
  destruct (max_item x xs) as [w n] eqn:Hbest. cbn [snd] in H1, H2.
  assert (In (w, n) (tally vs)) as Hin
      by (rewrite Hc, Heq; apply in_elt).
  destruct (In_tally _ _ _ Hin) as [Hw Hn].
  assert (forall v m, In (v, m) (tally vs) -> (m <= n)%Z) as Hle.
  { intros v m Hv. rewrite Hc, Heq in Hv.
    apply in_app_iff in Hv as [Hv|[Hv|Hv]].
    - specialize (H1 _ Hv). cbn [snd] in H1. lia.
    - injection Hv as _ <-. lia.
    - specialize (H2 _ Hv). exact H2. }
  exists w. split; [cbn [most_common1]; rewrite Hbest, Hn; reflexivity|].
  split.
  - intros v. destruct (in_dec eq_dec v vs) as [Hv|Hv].
    + assert (In v (keys (tally vs))) as Hk
          by (apply In_keys_update; left; exact Hv).
      destruct (In_keys_exists _ _ Hk) as [m Hm].
      specialize (Hle _ _ Hm). apply In_tally in Hm as [_ ->]. lia.
    + rewrite (proj1 (count_occ_not_In eq_dec vs v) Hv). lia.
  - destruct (first_occurrence _ _ Hw) as (pre & post & Hvs & Hpre).
    exists pre, post. split; [exact Hvs|]. split; [exact Hpre|].
    intros v Hv.
    assert (keys c1 = keys (tally pre)) as Hkeys.
    { assert (keys (tally vs) = keys c1 ++ w :: keys c2) as Hk1.
      { rewrite Hc, Heq. unfold keys. rewrite map_app. reflexivity. }
      assert (exists extra, keys (tally vs)
                            = keys (tally pre) ++ w :: extra)
        as [extra Hk2].
      { rewrite Hvs. unfold tally.
        rewrite counter_update_app. cbn [counter_update fold_left].
        fold (counter_update post (counter_incr w (counter_update pre []))).
        destruct (keys_update post (counter_incr w (counter_update pre [])))
          as [extra ->].
        unfold counter_incr at 1. rewrite keys_set_new.
        - exists extra. rewrite <- app_assoc. reflexivity.
        - intros Hin'. apply In_keys_update in Hin' as [Hin'|[]].
          contradiction. }
      eapply NoDup_split_unique; [|rewrite <- Hk1; exact Hk2].
      rewrite <- Hk1. apply NoDup_keys_tally. }
    assert (In v (keys c1)) as Hvc1.
    { rewrite Hkeys. apply In_keys_update. left. exact Hv. }
    destruct (In_keys_exists _ _ Hvc1) as [m Hm].
    specialize (H1 _ Hm). cbn [snd] in H1.
    assert (In (v, m) (tally vs)) as Hm'
        by (rewrite Hc, Heq; apply in_app_iff; left; exact Hm).
    apply In_tally in Hm' as [_ ->]. lia.
Qed.
End CounterFacts.

(** ** Indentation *)

Lemma in_chars_indent c :
  in_chars [TAB; SP] c = true <-> c = TAB \/ c = SP.
Proof.
  unfold in_chars. cbn [existsb]. rewrite orb_false_r, orb_true_iff.
  rewrite !N.eqb_eq. tauto.
Qed.

Lemma lstrip_leading_run line :
  line = leading_run line ++ lstrip [TAB; SP] line.
Proof.
  induction line as [|c line IH]; [reflexivity|].
  cbn [leading_run lstrip].
  destruct (in_chars [TAB; SP] c); [|reflexivity].
  cbn [app]. f_equal. exact IH.
Qed.

Lemma lstrip_blank line :
  truthy (lstrip [TAB; SP] line) = negb (is_blank line).
Proof.
  induction line as [|c line IH]; [reflexivity|].
  cbn [lstrip is_blank forallb].
  destruct (in_chars [TAB; SP] c); [exact IH|reflexivity].
Qed.

Lemma indent_is_leading_run line :
  firstn (length line - length (lstrip [TAB; SP] line)) line
  = leading_run line.
Proof.
  rewrite (lstrip_leading_run line) at 1 3.
  rewrite length_app, Nat.add_sub.
  rewrite firstn_app, Nat.sub_diag, firstn_all, firstn_O, app_nil_r.
  reflexivity.
Qed.

Lemma leading_run_chars line c :
  In c (leading_run line) -> c = TAB \/ c = SP.
Proof.
  induction line as [|d line IH]; [intros []|].
  cbn [leading_run]. destruct (in_chars [TAB; SP] d) eqn:Hd; [|intros []].
  intros [<-|Hin]; [apply in_chars_indent, Hd|apply IH, Hin].
Qed.

Lemma indent_step_vote st line :
  indent_step st line
  = match line_vote line with
    | None => st
    | Some tab => (counter_incr tab (fst st), snd st)
    | Some space => (counter_incr space (fst st), snd st ++ [line_width line])
    end.
Proof.
  unfold indent_step, line_vote, line_width.
  rewrite lstrip_blank, negb_involutive, indent_is_leading_run.
  destruct (is_blank line); [reflexivity|].
  destruct (leading_run line) as [|c r] eqn:Hrun; [reflexivity|].
  cbn [startswith andb]. rewrite (N.eqb_sym TAB c), (N.eqb_sym SP c).
  rewrite !andb_true_r.
  destruct (N.eqb_spec c TAB); [reflexivity|].
  destruct (N.eqb_spec c SP); [reflexivity|].
  exfalso. destruct (leading_run_chars line c); [|contradiction..].
  rewrite Hrun. left. reflexivity.
Qed.

Lemma indent_scan_fold lines : forall st,
  fold_left indent_step lines st
  = (counter_update (votes_of lines) (fst st), snd st ++ widths_of lines).
Proof.
  induction lines as [|l lines IH]; intros [c ws].
  - cbn. rewrite app_nil_r. reflexivity.
  - cbn [fold_left]. rewrite IH, indent_step_vote.
    unfold votes_of, widths_of. cbn [flat_map].
    destruct (line_vote l) as [[|]|]; cbn [fst snd app].
    + reflexivity.
    + rewrite <- app_assoc. reflexivity.
    + reflexivity.
Qed.

Lemma indent_counter_votes t : indent_counter t = tally (votes t).
Proof. unfold indent_counter, indent_scan. now rewrite indent_scan_fold. Qed.

Lemma indent_sizes_widths t : indent_sizes t = widths t.
Proof. unfold indent_sizes, indent_scan. now rewrite indent_scan_fold. Qed.

Lemma analyzed_indent_style_none cs t :
  votes t = [] -> indent_style (analyzed cs t) = None.
Proof.
  intros Hv. unfold analyzed. cbn [indent_style].
  rewrite indent_counter_votes, Hv. reflexivity.
Qed.

Lemma analyzed_indent_style_mode cs t :
  votes t <> [] ->
  exists w, indent_style (analyzed cs t) = Some w /\ is_mode_first (votes t) w.
Proof.
  intros Hv. destruct (most_common1_tally (votes t) Hv) as (w & Hmc & Hmode).
  exists w. split; [|exact Hmode].
  unfold analyzed. cbn [indent_style]. rewrite indent_counter_votes.
  destruct (tally (votes t)) as [|x xs]; [discriminate|].
  cbn [most_common1] in Hmc. injection Hmc as ->. reflexivity.
Qed.

Lemma analyzed_indent_size cs t :
  indent_size (analyzed cs t)
  = match indent_style (analyzed cs t), widths t with
    | Some space, [w] => Some w
    | Some space, _ :: _ :: _ => Some (math_gcd (widths t))
    | _, _ => None
    end.
Proof. unfold analyzed. cbn [indent_size indent_style].
       rewrite indent_sizes_widths. reflexivity. Qed.

Lemma votes_nil_iff t : votes t = [] <-> tab_votes t = 0 /\ space_votes t = 0.
Proof.
  unfold tab_votes, space_votes. split.
  - intros ->. split; reflexivity.
  - intros [Ht Hs]. destruct (votes t) as [|[|] vs]; [reflexivity|..];
      cbn [count_occ] in *.
    + destruct (eq_dec tab tab); [discriminate|contradiction].
    + destruct (eq_dec space space); [discriminate|contradiction].
Qed.

(** ** Greatest common divisor *)

Lemma fold_gcd_spec ws : forall g0,
  (0 <= g0)%Z ->
  let g := fold_left Z.gcd ws g0 in
  (0 <= g)%Z /\ (g | g0)%Z /\ (forall w, In w ws -> (g | w)%Z)
  /\ (forall d, (d | g0)%Z -> (forall w, In w ws -> (d | w)%Z) -> (d | g)%Z).
Proof.
  induction ws as [|w ws IH]; intros g0 Hg0; cbn [fold_left].
  - repeat split; auto using Z.divide_refl. intros ? [].
  - destruct (IH (Z.gcd g0 w) (Z.gcd_nonneg g0 w)) as (H0 & H1 & H2 & H3).
    repeat split.
    + exact H0.
    + eapply Z.divide_trans; [exact H1|apply Z.gcd_divide_l].
    + intros x [<-|Hx]; [|apply H2, Hx].
      eapply Z.divide_trans; [exact H1|apply Z.gcd_divide_r].
    + intros d Hd Hall. apply H3.
      * apply Z.gcd_greatest; [exact Hd|apply Hall; left; reflexivity].
      * intros x Hx. apply Hall. right. exact Hx.
Qed.

Lemma math_gcd_spec ws : is_gcd_of ws (math_gcd ws).
Proof.
  destruct ws as [|x ws]; unfold math_gcd, is_gcd_of.
  - repeat split; [lia|intros ? []|intros; apply Z.divide_0_r].
  - destruct (fold_gcd_spec ws (Z.abs x) (Z.abs_nonneg x))
      as (H0 & H1 & H2 & H3).
    repeat split.
    + exact H0.
    + intros w [<-|Hw]; [|apply H2, Hw].
      apply Z.divide_abs_r. exact H1.
    + intros d Hd. apply H3.
      * apply Z.divide_abs_r. apply Hd. left. reflexivity.
      * intros w Hw. apply Hd. right. exact Hw.
Qed.

Lemma is_gcd_of_unique ws g g' :
  is_gcd_of ws g -> is_gcd_of ws g' -> g = g'.
Proof.
  intros (H0 & H1 & H2) (H0' & H1' & H2').
  apply Z.divide_antisym_nonneg; auto.
Qed.

Lemma is_gcd_of_single w : (0 <= w)%Z -> is_gcd_of [w] w.
Proof.
  intros Hw. repeat split; [exact Hw|..].
  - intros x [<-|[]]. apply Z.divide_refl.
  - intros d Hd. apply Hd. left. reflexivity.
Qed.

(** ** Widths *)

Lemma line_vote_space_width line :
  line_vote line = Some space -> (0 < line_width line)%Z.
Proof.
  unfold line_vote, line_width. destruct (is_blank line); [discriminate|].
  destruct (leading_run line); [discriminate|]. cbn [length]. lia.
Qed.

Lemma widths_of_positive lines w : In w (widths_of lines) -> (0 < w)%Z.
Proof.
  unfold widths_of. rewrite in_flat_map. intros (l & _ & Hw).
  destruct (line_vote l) as [[|]|] eqn:Hv; try contradiction.
  destruct Hw as [<-|[]]. apply line_vote_space_width, Hv.
Qed.

Lemma widths_of_length lines :
  length (widths_of lines) = count_occ eq_dec (votes_of lines) space.
Proof.
  induction lines as [|l lines IH]; [reflexivity|].
  unfold widths_of, votes_of in *. cbn [flat_map].
  destruct (line_vote l) as [[|]|]; cbn [app length count_occ].
  - destruct (eq_dec tab space); [discriminate|]. exact IH.
  - destruct (eq_dec space space); [|contradiction]. now rewrite IH.
  - exact IH.
Qed.

Lemma widths_of_In lines w :
  In w (widths_of lines) <->
  exists l, In l lines /\ line_vote l = Some space /\ line_width l = w.
Proof.
  unfold widths_of. rewrite in_flat_map. split.
  - intros (l & Hl & Hw).
    destruct (line_vote l) as [[|]|] eqn:Hv; try contradiction.
    destruct Hw as [<-|[]]. exists l. auto.
  - intros (l & Hl & Hv & <-). exists l. split; [exact Hl|].
    rewrite Hv. left. reflexivity.
Qed.

Lemma votes_of_In lines s :
  In s (votes_of lines) <-> exists l, In l lines /\ line_vote l = Some s.
Proof.
  unfold votes_of. rewrite in_flat_map. split.
  - intros (l & Hl & Hs). destruct (line_vote l) eqn:Hv; [|contradiction].
    destruct Hs as [<-|[]]. exists l. auto.
  - intros (l & Hl & Hv). exists l. split; [exact Hl|].
    rewrite Hv. left. reflexivity.
Qed.

Lemma spaces_only_vote line n :
  line_vote line <> None -> leading_run line = repeat SP n ->
  line_vote line = Some space /\ line_width line = Z.of_nat n.
Proof.
  unfold line_vote, line_width. intros Hv Hrun. rewrite Hrun in *.
  rewrite repeat_length. split; [|reflexivity].
  destruct (is_blank line); [contradiction|].
  destruct n; cbn [repeat] in *; [contradiction|reflexivity].
Qed.

(** ** The indentation of a file *)

Lemma analyzed_more_tabs cs t :
  space_votes t < tab_votes t -> indent_style (analyzed cs t) = Some tab.
Proof.
  intros Hlt.
  assert (votes t <> []) as Hne.
  { intros Hnil. apply votes_nil_iff in Hnil. lia. }
  destruct (analyzed_indent_style_mode cs t Hne) as (w & -> & Hmax & _).
  destruct w; [reflexivity|].
  specialize (Hmax tab). unfold space_votes, tab_votes in Hlt. lia.
Qed.

Lemma analyzed_more_spaces cs t :
  tab_votes t < space_votes t -> indent_style (analyzed cs t) = Some space.
Proof.
  intros Hlt.
  assert (votes t <> []) as Hne.
  { intros Hnil. apply votes_nil_iff in Hnil. lia. }
  destruct (analyzed_indent_style_mode cs t Hne) as (w & -> & Hmax & _).
  destruct w; [|reflexivity].
  specialize (Hmax space). unfold space_votes, tab_votes in Hlt. lia.
Qed.

Lemma analyzed_size_gcd cs t :
  indent_style (analyzed cs t) = Some space -> widths t <> [] ->
  exists g, indent_size (analyzed cs t) = Some g /\ is_gcd_of (widths t) g.
Proof.
  intros Hs Hw. rewrite analyzed_indent_size, Hs.
  destruct (widths t) as [|w [|w' ws]] eqn:Hws; [contradiction|..].
  - exists w. split; [reflexivity|]. apply is_gcd_of_single.
    assert (0 < w)%Z; [|lia].
    apply (widths_of_positive (splitlines t)). fold (widths t).
    rewrite Hws. left. reflexivity.
  - exists (math_gcd (w :: w' :: ws)). split; [reflexivity|].
    apply math_gcd_spec.
Qed.

Lemma is_gcd_of_member ws m :
  In m ws -> (0 <= m)%Z -> (forall w, In w ws -> (m | w)%Z) ->
  is_gcd_of ws m.
Proof.
  intros Hin Hm Hdiv. repeat split; [exact Hm|exact Hdiv|].
  intros d Hd. apply Hd, Hin.
Qed.

Lemma analyzed_spaces_only cs t m :
  (forall s, In s (votes t) -> s = space) ->
  In m (widths t) -> (forall w, In w (widths t) -> (m | w)%Z) ->
  indent_style (analyzed cs t) = Some space
  /\ indent_size (analyzed cs t) = Some m.
Proof.
  intros Hall Hm Hdiv.
  assert (0 < m)%Z as Hpos by (apply (widths_of_positive _ _ Hm)).
  assert (tab_votes t = 0) as Htab.
  { apply count_occ_not_In. intros Hin. apply Hall in Hin. discriminate. }
  assert (0 < space_votes t) as Hsp.
  { unfold space_votes, votes. rewrite <- widths_of_length.
    fold (widths t). destruct (widths t); [destruct Hm|cbn; lia]. }
  assert (indent_style (analyzed cs t) = Some space) as Hstyle
      by (apply analyzed_more_spaces; lia).
  split; [exact Hstyle|].
  destruct (analyzed_size_gcd cs t Hstyle) as (g & -> & Hg).
  - intros Hnil. rewrite Hnil in Hm. destruct Hm.
  - f_equal. apply (is_gcd_of_unique _ _ _ Hg).
    apply is_gcd_of_member; [exact Hm|lia|exact Hdiv].
Qed.

(** C5: each non-blank line whose leading run of tabs and spaces starts
    with a tab is one tab vote, each whose run starts with a space is one
    space vote and records the length of the run; [indent_style] is the
    style with more votes and null without votes; when it is space and a
    width was recorded, [indent_size] is the greatest common divisor of the
    recorded widths, the width itself when there is one; so a file whose
    indented lines all have exactly [n] spaces gets [indent_size] [n], and
    one whose indented lines have 2 or 4 spaces, both present, gets 2. *)
Theorem indentation_of_file be fs filepath raw :
  fs filepath = Some raw ->
  let t := snd (detected be raw) in
  let p := analyze_file be fs filepath in
  (counter_get tab (indent_counter t) = Z.of_nat (tab_votes t)
   /\ counter_get space (indent_counter t) = Z.of_nat (space_votes t)
   /\ indent_sizes t = widths t)
  /\ (space_votes t < tab_votes t -> indent_style p = Some tab)
  /\ (tab_votes t < space_votes t -> indent_style p = Some space)
  /\ (tab_votes t = 0 -> space_votes t = 0 -> indent_style p = None)
  /\ (indent_style p = Some space -> widths t <> [] ->
      exists g, indent_size p = Some g /\ is_gcd_of (widths t) g)
  /\ (forall w, indent_style p = Some space -> widths t = [w] ->
                indent_size p = Some w)
  /\ (forall n,
        (forall line, In line (splitlines t) -> line_vote line <> None ->
                      leading_run line = repeat SP n) ->
        (exists line, In line (splitlines t) /\ line_vote line <> None) ->
        indent_size p = Some (Z.of_nat n))
  /\ ((forall line, In line (splitlines t) -> line_vote line <> None ->
                    leading_run line = repeat SP 2
                    \/ leading_run line = repeat SP 4) ->
      (exists line, In line (splitlines t) /\ line_vote line <> None
                    /\ leading_run line = repeat SP 2) ->
      (exists line, In line (splitlines t) /\ line_vote line <> None
                    /\ leading_run line = repeat SP 4) ->
      indent_size p = Some 2%Z).
Proof.
  intros Hfs t p. subst p.
  rewrite (analyze_file_readable be fs filepath raw Hfs). fold t.
  set (cs := fst (detected be raw)).
  split; [|split; [|split; [|split; [|split; [|split; [|split]]]]]].
  - rewrite indent_counter_votes, indent_sizes_widths, !counter_get_tally.
    auto.
  - apply analyzed_more_tabs.
  - apply analyzed_more_spaces.
  - intros Ht Hs. apply analyzed_indent_style_none, votes_nil_iff. auto.
  - apply analyzed_size_gcd.
  - intros w Hs Hw. rewrite analyzed_indent_size, Hs, Hw. reflexivity.
  - intros n Hall (line & Hin & Hv).
    destruct (spaces_only_vote line n Hv (Hall _ Hin Hv)) as [Hsp Hwd].
    apply analyzed_spaces_only.
    + intros s Hs. apply votes_of_In in Hs as (l & Hl & Hvl).
      assert (line_vote l <> None) as Hnn by congruence.
      destruct (spaces_only_vote l n Hnn (Hall _ Hl Hnn)). congruence.
    + apply widths_of_In. exists line. auto.
    + intros w Hw. apply widths_of_In in Hw as (l & Hl & Hvl & <-).
      assert (line_vote l <> None) as Hnn by congruence.
      destruct (spaces_only_vote l n Hnn (Hall _ Hl Hnn)) as [_ ->].
      apply Z.divide_refl.
  - intros Hall (l2 & Hin2 & Hv2 & Hr2) _.
    destruct (spaces_only_vote l2 2 Hv2 Hr2) as [Hsp2 Hwd2].
    apply (analyzed_spaces_only cs t 2%Z).
    + intros s Hs. apply votes_of_In in Hs as (l & Hl & Hvl).
      assert (line_vote l <> None) as Hnn by congruence.
      destruct (Hall _ Hl Hnn) as [Hr|Hr];
        destruct (spaces_only_vote l _ Hnn Hr); congruence.
    + apply widths_of_In. exists l2. auto.
    + intros w Hw. apply widths_of_In in Hw as (l & Hl & Hvl & <-).
      assert (line_vote l <> None) as Hnn by congruence.
      destruct (Hall _ Hl Hnn) as [Hr|Hr];
        destruct (spaces_only_vote l _ Hnn Hr) as [_ ->].
      * apply Z.divide_refl.
      * exists 2%Z. reflexivity.
Qed.

(** C9: in every record of the analyzer, a non-null [indent_size] comes
    with [indent_style] space and a line that voted for spaces, and is a
    positive integer. *)
Theorem indent_size_only_for_spaces be fs filepath n :
  indent_size (analyze_file be fs filepath) = Some n ->
  indent_style (analyze_file be fs filepath) = Some space
  /\ (0 < n)%Z
  /\ exists raw line,
      fs filepath = Some raw
      /\ In line (splitlines (snd (detected be raw)))
      /\ line_vote line = Some space.
Proof.
  destruct (fs filepath) as [raw|] eqn:Hfs.
  2: { rewrite (analyze_file_unreadable be fs filepath Hfs). discriminate. }
  rewrite (analyze_file_readable be fs filepath raw Hfs).
  set (t := snd (detected be raw)). set (cs := fst (detected be raw)).
  rewrite analyzed_indent_size.
  destruct (indent_style (analyzed cs t)) as [[|]|] eqn:Hs; try discriminate.
  intros Hn. split; [reflexivity|].
  assert (widths t <> []) as Hne
      by (intros Hnil; rewrite Hnil in Hn; discriminate).
  destruct (analyzed_size_gcd cs t Hs Hne) as (g & Hg & Hg0 & Hdiv & _).
  rewrite analyzed_indent_size, Hs, Hn in Hg. injection Hg as <-.
  destruct (widths t) as [|w ws] eqn:Hws; [contradiction|].
  assert (In w (widths t)) as Hw by (rewrite Hws; left; reflexivity).
  pose proof (widths_of_positive _ _ Hw) as Hpos.
  split.
  - assert (n <> 0)%Z; [|lia]. intros ->.
    assert (0 | w)%Z as Hz by (apply Hdiv; left; reflexivity).
    apply Z.divide_0_l in Hz. lia.
  - apply widths_of_In in Hw as (line & Hin & Hv & _).
    exists raw, line. auto.
Qed.

Lemma votes_of_first lines s rest :
  votes_of lines = s :: rest ->
  exists before line after,
    lines = before ++ line :: after
    /\ (forall l, In l before -> line_vote l = None)
    /\ line_vote line = Some s.
Proof.
  induction lines as [|l lines IH]; [discriminate|].
  unfold votes_of in *. cbn [flat_map].
  destruct (line_vote l) as [s'|] eqn:Hv; cbn [app].
  - intros Heq. injection Heq as -> _.
    exists [], l, lines. split; [reflexivity|]. split; [intros ? []|exact Hv].
  - intros Heq. destruct (IH Heq) as (before & line & after & -> & Hb & Hl).
    exists (l :: before), line, after.
    split; [reflexivity|]. split; [|exact Hl].
    intros x [<-|Hx]; [exact Hv|apply Hb, Hx].
Qed.

(** C10: when the tab votes and the space votes of a file are equal and
    not zero, [indent_style] is the vote of the first line that votes. *)
Theorem indent_style_tie_first_line be fs filepath raw :
  fs filepath = Some raw ->
  let t := snd (detected be raw) in
  tab_votes t = space_votes t -> tab_votes t <> 0 ->
  exists before line after s,
    splitlines t = before ++ line :: after
    /\ (forall l, In l before -> line_vote l = None)
    /\ line_vote line = Some s
    /\ indent_style (analyze_file be fs filepath) = Some s.
Proof.
  intros Hfs t Htie Hnz.
  rewrite (analyze_file_readable be fs filepath raw Hfs). fold t.
  assert (votes t <> []) as Hne.
  { intros Hnil. apply votes_nil_iff in Hnil. lia. }
  destruct (analyzed_indent_style_mode (fst (detected be raw)) t Hne)
    as (w & Hw & _ & pre & post & Hvs & Hpre & Hlt).
  destruct pre as [|v pre].
  - cbn [app] in Hvs. destruct (votes_of_first _ _ _ Hvs)
      as (before & line & after & Hl & Hb & Hv).
    exists before, line, after, w. auto.
  - exfalso. specialize (Hlt v (or_introl eq_refl)).
    assert (v <> w) as Hvw by (intros ->; apply Hpre; left; reflexivity).
    unfold tab_votes, space_votes in Htie.
    destruct v, w; try contradiction; lia.
Qed.

(** ** Dictionaries *)

Lemma text_eqb_spec s t : reflect (s = t) (text_eqb s t).
Proof.
  revert t. induction s as [|a s IH]; intros [|b t]; cbn [text_eqb];
    try (constructor; congruence).
  destruct (N.eqb_spec a b) as [->|Hne]; cbn [andb].
  - destruct (IH t); constructor; congruence.
  - constructor. congruence.
Qed.

Lemma text_eqb_refl s : text_eqb s s = true.
Proof. destruct (text_eqb_spec s s); congruence. Qed.

Section DictFacts.
Context {V : Type}.
Implicit Types (d : dict V) (k : text).

Lemma get_or_update default f d k k' :
  get_or default (dict_update default k f d) k'
  = if text_eqb k' k then f (get_or default d k') else get_or default d k'.
Proof.
  unfold get_or.
  induction d as [|[k0 v] d IH]; cbn [dict_update dict_get].
  - destruct (text_eqb_spec k' k); reflexivity.
  - destruct (text_eqb_spec k k0) as [->|Hk]; cbn [dict_get].
    + destruct (text_eqb_spec k' k0); reflexivity.
    + destruct (text_eqb_spec k' k0) as [->|Hk'].
      * destruct (text_eqb_spec k0 k); [congruence|reflexivity].
      * exact IH.
Qed.

Lemma dict_keys_update_old default f d k :
  In k (map fst d) -> map fst (dict_update default k f d) = map fst d.
Proof.
  induction d as [|[k0 v] d IH]; cbn [dict_update map fst In].
  - contradiction.
  - intros Hin. destruct (text_eqb_spec k k0) as [->|Hk]; [reflexivity|].
    cbn [map fst]. f_equal. apply IH.
    destruct Hin as [Heq|Hin]; [congruence|exact Hin].
Qed.

Lemma dict_keys_update_new default f d k :
  ~ In k (map fst d) ->
  map fst (dict_update default k f d) = map fst d ++ [k].
Proof.
  induction d as [|[k0 v] d IH]; cbn [dict_update map fst In app].
  - reflexivity.
  - intros Hin. destruct (text_eqb_spec k k0) as [->|Hk]; [tauto|].
    cbn [map fst]. f_equal. apply IH. tauto.
Qed.

Lemma In_dict_keys_update default f d k k' :
  In k' (map fst (dict_update default k f d))
  <-> k' = k \/ In k' (map fst d).
Proof.
  destruct (in_dec (list_eq_dec N.eq_dec) k (map fst d)) as [Hin|Hin].
  - rewrite dict_keys_update_old by auto. split; [auto|].
    intros [->|]; auto.
  - rewrite dict_keys_update_new by auto. rewrite in_app_iff. cbn [In].
    split; [intros [|[|[]]]; auto|intros [|]; auto].
Qed.

Lemma NoDup_dict_keys_update default f d k :
  NoDup (map fst d) -> NoDup (map fst (dict_update default k f d)).
Proof.
  intros Hnd.
  destruct (in_dec (list_eq_dec N.eq_dec) k (map fst d)) as [Hin|Hin].
  - rewrite dict_keys_update_old; auto.
  - rewrite dict_keys_update_new by auto.
    apply NoDup_app; [assumption|repeat constructor; intros []|].
    intros x Hx [<-|[]]. contradiction.
Qed.

Lemma dict_get_In d k v :
  NoDup (map fst d) -> In (k, v) d -> dict_get k d = Some v.
Proof.
  induction d as [|[k0 v0] d IH]; cbn [map fst In dict_get].
  - contradiction.
  - intros Hnd [Heq|Hin].
    + injection Heq as -> ->. now rewrite text_eqb_refl.
    + inversion Hnd as [|? ? Hnotin Hnd']; subst.
      destruct (text_eqb_spec k k0) as [->|]; [|auto].
      exfalso. apply Hnotin. change k0 with (fst (k0, v)).
      apply in_map, Hin.
Qed.

Lemma dict_get_Some d k v : dict_get k d = Some v -> In (k, v) d.
Proof.
  induction d as [|[k0 v0] d IH]; cbn [dict_get In]; [discriminate|].
  destruct (text_eqb_spec k k0) as [->|].
  - intros Heq. injection Heq as ->. left. reflexivity.
  - intros Hget. right. apply IH, Hget.
Qed.

Lemma dict_get_None d k : ~ In k (map fst d) -> dict_get k d = None.
Proof.
  induction d as [|[k0 v0] d IH]; cbn [dict_get map fst In]; [reflexivity|].
  intros Hin. destruct (text_eqb_spec k k0) as [->|]; [tauto|].
  apply IH. tauto.
Qed.
End DictFacts.

(** ** Aggregation *)

Lemma tallies_of_get_or aggregated ext :
  tallies_of aggregated ext = get_or no_votes aggregated ext.
Proof. reflexivity. Qed.

Lemma tallies_of_vote_tag {K} (vote : K -> Tallies -> Tallies) ext value
      aggregated ext' :
  tallies_of (vote_tag vote ext value aggregated) ext'
  = if text_eqb ext' ext
    then match value with
         | Some v => vote v (tallies_of aggregated ext')
         | None => tallies_of aggregated ext'
         end
    else tallies_of aggregated ext'.
Proof.
  unfold vote_tag. rewrite !tallies_of_get_or.
  destruct value; [apply get_or_update|].
  destruct (text_eqb ext' ext); reflexivity.
Qed.

Lemma tallies_of_vote_int vote ext value aggregated ext' :
  tallies_of (vote_int vote ext value aggregated) ext'
  = if text_eqb ext' ext
    then match value with
         | Some v => if (v =? 0)%Z then tallies_of aggregated ext'
                     else vote v (tallies_of aggregated ext')
         | None => tallies_of aggregated ext'
         end
    else tallies_of aggregated ext'.
Proof.
  unfold vote_int. rewrite !tallies_of_get_or.
  destruct value as [v|].
  - destruct (v =? 0)%Z; [destruct (text_eqb ext' ext); reflexivity|].
    apply get_or_update.
  - destruct (text_eqb ext' ext); reflexivity.
Qed.

Lemma tallies_of_aggregate_props ext aggregated props ext' :
  tallies_of (aggregate_props ext aggregated props) ext'
  = if text_eqb ext' ext then cast props (tallies_of aggregated ext')
    else tallies_of aggregated ext'.
Proof.
  unfold aggregate_props, cast.
  rewrite !tallies_of_vote_tag, tallies_of_vote_int, tallies_of_vote_tag.
  destruct (text_eqb ext' ext); reflexivity.
Qed.

Lemma tallies_of_fold_props ext records : forall aggregated ext',
  tallies_of (fold_left (aggregate_props ext) records aggregated) ext'
  = if text_eqb ext' ext
    then fold_left (fun a p => cast p a) records (tallies_of aggregated ext')
    else tallies_of aggregated ext'.
Proof.
  induction records as [|p records IH]; intros aggregated ext';
    cbn [fold_left].
  - destruct (text_eqb ext' ext); reflexivity.
  - rewrite IH, tallies_of_aggregate_props.
    destruct (text_eqb ext' ext); reflexivity.
Qed.

Lemma tallies_of_aggregate_from file_properties : forall aggregated ext,
  tallies_of
    (fold_left
       (fun aggregated item =>
          fold_left (aggregate_props (fst item)) (snd item) aggregated)
       file_properties aggregated) ext
  = fold_left (fun a p => cast p a) (records_of file_properties ext)
              (tallies_of aggregated ext).
Proof.
  induction file_properties as [|[k records] fp IH]; intros aggregated ext;
    cbn [fold_left records_of flat_map fst snd]; [reflexivity|].
  fold (records_of fp ext). rewrite IH, tallies_of_fold_props.
  rewrite fold_left_app. destruct (text_eqb ext k); reflexivity.
Qed.

Lemma tallies_of_aggregate_properties file_properties ext :
  tallies_of (aggregate_properties file_properties) ext
  = fold_left (fun a p => cast p a) (records_of file_properties ext) no_votes.
Proof. apply tallies_of_aggregate_from. Qed.

Lemma records_of_dict_get file_properties ext records :
  NoDup (map fst file_properties) ->
  dict_get ext file_properties = Some records ->
  records_of file_properties ext = records.
Proof.
  induction file_properties as [|[k v] fp IH];
    cbn [dict_get records_of flat_map map fst snd]; [discriminate|].
  intros Hnd Hget. inversion Hnd as [|? ? Hnotin Hnd']; subst.
  fold (records_of fp ext).
  destruct (text_eqb_spec ext k) as [->|Hne].
  - injection Hget as ->.
    assert (records_of fp k = []) as ->; [|apply app_nil_r].
    clear -Hnotin. induction fp as [|[k' v'] fp IH]; [reflexivity|].
    cbn [records_of flat_map fst snd map In] in *.
    destruct (text_eqb_spec k k'); [exfalso; auto|].
    apply IH. tauto.
  - apply IH; assumption.
Qed.

Lemma fold_cast records : forall a,
  fold_left (fun a p => cast p a) records a
  = mkTallies
      (counter_update (non_null indent_style records) (indent_style_votes a))
      (counter_update (non_null truthy_size records) (indent_size_votes a))
      (counter_update (non_null eol records) (eol_votes a))
      (counter_update (non_null charset records) (charset_votes a)).
Proof.
  induction records as [|p records IH]; intros a; cbn [fold_left].
  - destruct a; reflexivity.
  - rewrite IH. unfold non_null, cast, truthy_size. cbn [flat_map].
    destruct (indent_style p), (indent_size p) as [v|], (eol p), (charset p);
      try destruct (v =? 0)%Z; reflexivity.
Qed.

Lemma tallies_of_records file_properties ext :
  let records := records_of file_properties ext in
  tallies_of (aggregate_properties file_properties) ext
  = mkTallies (tally (non_null indent_style records))
              (tally (non_null truthy_size records))
              (tally (non_null eol records))
              (tally (non_null charset records)).
Proof.
  cbn zeta. rewrite tallies_of_aggregate_properties, fold_cast. reflexivity.
Qed.

Lemma non_null_truthy_size records :
  (forall p n, In p records -> indent_size p = Some n -> (0 < n)%Z) ->
  non_null truthy_size records = non_null indent_size records.
Proof.
  induction records as [|p records IH]; intros Hwf; [reflexivity|].
  unfold non_null in *. cbn [flat_map]. rewrite IH.
  - f_equal. unfold truthy_size.
    destruct (indent_size p) as [n|] eqn:Hn; [|reflexivity].
    specialize (Hwf p n (or_introl eq_refl) Hn).
    destruct (Z.eqb_spec n 0); [lia|reflexivity].
  - intros q n Hq. apply Hwf. right. exact Hq.
Qed.

Lemma non_null_map {A} (field : FileProperties -> option A) records :
  non_null field records
  = flat_map (fun o => match o with Some v => [v] | None => [] end)
             (map field records).
Proof.
  unfold non_null. induction records as [|p records IH]; [reflexivity|].
  cbn [flat_map map]. now rewrite IH.
Qed.

Lemma determine_setting_tally {K} `{EqDec K} (vs : list K) default :
  selected vs default (determine_setting (tally vs) default).
Proof.
  split.
  - intros ->. reflexivity.
  - intros Hne. destruct (most_common1_tally vs Hne) as (w & Hmc & Hmode).
    unfold determine_setting. rewrite Hmc.
    destruct (tally vs) eqn:Ht; [apply tally_nil_iff in Ht; contradiction|].
    exact Hmode.
Qed.

Lemma is_mode_first_majority {K} `{EqDec K} (vs : list K) w v :
  is_mode_first vs w ->
  (forall u, u <> v -> count_occ eq_dec vs u < count_occ eq_dec vs v) ->
  w = v.
Proof.
  intros [Hmax _] Hv. destruct (eq_dec w v) as [|Hne]; [assumption|].
  specialize (Hmax v). specialize (Hv w Hne). lia.
Qed.

(** C4: for an extension and each of the four fields, the counter of the
    field tallies the non-null values of the records of the extension, the
    setting is the value with the highest tally, the first encountered
    winning a tie, and without a non-null value it is the default of the
    field: space, 4, lf, utf-8; three records of ".x" with the [eol]
    values lf, lf and crlf, in any order, give lf. *)
Theorem aggregation_selects_mode file_properties ext records :
  NoDup (map fst file_properties) ->
  dict_get ext file_properties = Some records ->
  (forall p n, In p records -> indent_size p = Some n -> (0 < n)%Z) ->
  let a := tallies_of (aggregate_properties file_properties) ext in
  ((forall v, counter_get v (indent_style_votes a)
              = Z.of_nat (count_occ eq_dec (non_null indent_style records) v))
   /\ selected (non_null indent_style records) space
               (determine_setting (indent_style_votes a) space))
  /\ ((forall v, counter_get v (indent_size_votes a)
                 = Z.of_nat (count_occ eq_dec (non_null indent_size records) v))
      /\ selected (non_null indent_size records) 4%Z
                  (determine_setting (indent_size_votes a) 4%Z))
  /\ ((forall v, counter_get v (eol_votes a)
                 = Z.of_nat (count_occ eq_dec (non_null eol records) v))
      /\ selected (non_null eol records) lf
                  (determine_setting (eol_votes a) lf))
  /\ ((forall v, counter_get v (charset_votes a)
                 = Z.of_nat (count_occ eq_dec (non_null charset records) v))
      /\ selected (non_null charset records) utf_8
                  (determine_setting (charset_votes a) utf_8))
  /\ (ext = lit ".x" ->
      Permutation (map eol records) [Some lf; Some lf; Some crlf] ->
      determine_setting (eol_votes a) lf = lf).
Proof.
  intros Hnd Hget Hwf a. subst a.
  pose proof (tallies_of_records file_properties ext) as Ha. cbn zeta in Ha.
  rewrite (records_of_dict_get _ _ _ Hnd Hget) in Ha. rewrite Ha.
  rewrite (non_null_truthy_size _ Hwf). cbn [indent_style_votes
    indent_size_votes eol_votes charset_votes].
  repeat split;
    try (intros v; apply counter_get_tally);
    try (apply determine_setting_tally; assumption).
  intros _ Hperm.
  assert (Permutation (non_null eol records) [lf; lf; crlf]) as Hvs.
  { rewrite non_null_map.
    apply (Permutation_flat_map
             (fun o : option Eol => match o with Some v => [v] | None => [] end)
             Hperm). }
  destruct (determine_setting_tally (non_null eol records) lf) as [_ Hsel].
  apply (is_mode_first_majority (non_null eol records)).
  - apply Hsel. intros Hnil. rewrite Hnil in Hvs.
    apply Permutation_nil in Hvs. discriminate.
  - intros u Hu.
    pose proof (proj1 (Permutation_count_occ eq_dec _ _) Hvs) as Hc.
    rewrite !Hc.
    destruct u; [| |contradiction]; vm_compute; lia.
Qed.

(** ** The order of strings *)

Lemma text_ltb_irrefl s : text_ltb s s = false.
Proof.
  induction s as [|a s IH]; [reflexivity|]. cbn [text_ltb].
  rewrite N.ltb_irrefl, N.eqb_refl, IH. reflexivity.
Qed.

Lemma text_ltb_cons a s b t :
  text_ltb (a :: s) (b :: t) = true
  <-> (a < b)%N \/ (a = b /\ text_ltb s t = true).
Proof.
  cbn [text_ltb]. rewrite orb_true_iff, andb_true_iff, N.ltb_lt, N.eqb_eq.
  reflexivity.
Qed.

Lemma text_ltb_trans s t u :
  text_ltb s t = true -> text_ltb t u = true -> text_ltb s u = true.
Proof.
  revert t u. induction s as [|a s IH]; intros [|b t] [|c u];
    try discriminate; try reflexivity.
  rewrite !text_ltb_cons. intros [Hab|[-> Hst]] [Hbc|[-> Htu]].
  - left. lia.
  - left. exact Hab.
  - left. exact Hbc.
  - right. split; [reflexivity|]. eapply IH; eassumption.
Qed.

Lemma text_ltb_total s t :
  text_ltb s t = false -> text_ltb t s = false -> s = t.
Proof.
  revert t. induction s as [|a s IH]; intros [|b t];
    try discriminate; try reflexivity.
  intros Hst Hts.
  destruct (N.lt_trichotomy a b) as [Hlt|[->|Hgt]].
  - assert (text_ltb (a :: s) (b :: t) = true)
      by (apply text_ltb_cons; auto). congruence.
  - f_equal. apply IH.
    + destruct (text_ltb s t) eqn:E; [|reflexivity].
      assert (text_ltb (b :: s) (b :: t) = true)
        by (apply text_ltb_cons; auto). congruence.
    + destruct (text_ltb t s) eqn:E; [|reflexivity].
      assert (text_ltb (b :: t) (b :: s) = true)
        by (apply text_ltb_cons; auto). congruence.
  - assert (text_ltb (b :: t) (a :: s) = true)
      by (apply text_ltb_cons; auto). congruence.
Qed.

Lemma text_ltb_asym s t : text_ltb s t = true -> text_ltb t s = false.
Proof.
  intros Hst. destruct (text_ltb t s) eqn:Hts; [|reflexivity].
  pose proof (text_ltb_trans _ _ _ Hst Hts) as Hss.
  rewrite text_ltb_irrefl in Hss. discriminate.
Qed.

(** [text_ltb] is the lexicographic order: after a common prefix, either
    the first string ends and the second goes on, or the first has the
    smaller code point. *)
Lemma text_ltb_lexicographic s t :
  text_ltb s t = true <->
  exists p,
    (exists c t', s = p /\ t = p ++ c :: t')
    \/ (exists a b s' t',
           s = p ++ a :: s' /\ t = p ++ b :: t' /\ (a < b)%N).
Proof.
  revert t. induction s as [|a s IH]; intros [|b t].
  - split; [discriminate|].
    intros (p & [(c & t' & _ & Ht)|(x & y & s' & t' & Hs & _)]);
      destruct p; discriminate.
  - split; [|reflexivity]. intros _. exists []. left. exists b, t. auto.
  - split; [discriminate|].
    intros (p & [(c & t' & _ & Ht)|(x & y & s' & t' & _ & Ht & _)]);
      destruct p; discriminate.
  - rewrite text_ltb_cons, IH. split.
    + intros [Hlt|[-> (p & Hp)]].
      * exists []. right. exists a, b, s, t. auto.
      * exists (b :: p).
        destruct Hp as [(c & t' & -> & ->)|(x & y & s' & t' & -> & -> & Hxy)].
        -- left. exists c, t'. auto.
        -- right. exists x, y, s', t'. auto.
    + intros (p & Hp). destruct p as [|c p].
      * destruct Hp as [(c & t' & Hs & _)|(x & y & s' & t' & Hs & Ht & Hxy)];
          [discriminate|].
        cbn [app] in *. injection Hs as -> _. injection Ht as -> _.
        left. exact Hxy.
      * right.
        destruct Hp as [(x & t' & Hs & Ht)|(x & y & s' & t' & Hs & Ht & Hxy)];
          cbn [app] in *; injection Hs as -> Hs; injection Ht as -> Ht;
          subst; (split; [reflexivity|]); exists p.
        -- left. exists x, t'. auto.
        -- right. exists x, y, s', t'. auto.
Qed.

(** ** [sorted] *)

Section SortedFacts.
Context {V : Type}.
Implicit Types (d l : dict V) (x y : text * V).

Lemma key_le_trans x y z : key_le x y -> key_le y z -> key_le x z.
Proof.
  unfold key_le. intros Hxy Hyz.
  destruct (text_ltb (fst z) (fst x)) eqn:Hzx; [|reflexivity].
  destruct (text_ltb (fst x) (fst y)) eqn:Hlt.
  - rewrite (text_ltb_trans _ _ _ Hzx Hlt) in Hyz. discriminate.
  - rewrite (text_ltb_total _ _ Hlt Hxy) in Hzx. congruence.
Qed.

Lemma insert_item_perm x l : Permutation (insert_item x l) (x :: l).
Proof.
  induction l as [|y l IH]; cbn [insert_item]; [reflexivity|].
  destruct (text_ltb (fst y) (fst x)); [|reflexivity].
  rewrite IH. apply perm_swap.
Qed.

Lemma sorted_perm d : Permutation (sorted d) d.
Proof.
  induction d as [|x d IH]; cbn [sorted fold_right]; [reflexivity|].
  fold (sorted d). rewrite insert_item_perm. now constructor.
Qed.

Lemma insert_item_sorted x l :
  StronglySorted key_le l -> StronglySorted key_le (insert_item x l).
Proof.
  induction 1 as [|y l Hl IH Hy]; cbn [insert_item].
  - repeat constructor.
  - destruct (text_ltb (fst y) (fst x)) eqn:Hyx.
    + constructor; [exact IH|].
      apply Forall_forall. intros z Hz.
      apply (Permutation_in _ (insert_item_perm x l)) in Hz.
      destruct Hz as [<-|Hz]; [unfold key_le; apply text_ltb_asym, Hyx|].
      rewrite Forall_forall in Hy. apply Hy, Hz.
    + constructor; [constructor; assumption|].
      constructor; [exact Hyx|].
      revert Hy. apply Forall_impl. intros z Hz.
      eapply key_le_trans; [exact Hyx|exact Hz].
Qed.

Lemma sorted_sorted d : StronglySorted key_le (sorted d).
Proof.
  induction d as [|x d IH]; cbn [sorted fold_right]; [constructor|].
  apply insert_item_sorted, IH.
Qed.
End SortedFacts.

Lemma keys_strictly_sorted {V} (l : dict V) :
  StronglySorted key_le l -> NoDup (map fst l) ->
  StronglySorted text_lt (map fst l).
Proof.
  induction 1 as [|x l Hl IH Hx]; cbn [map]; intros Hnd; [constructor|].
  inversion Hnd as [|? ? Hnotin Hnd']; subst.
  constructor; [apply IH, Hnd'|].
  apply Forall_forall. intros k Hk.
  apply in_map_iff in Hk as (y & <- & Hy).
  rewrite Forall_forall in Hx. specialize (Hx y Hy). unfold key_le in Hx.
  unfold text_lt. destruct (text_ltb (fst x) (fst y)) eqn:Hxy; [reflexivity|].
  exfalso. apply Hnotin. rewrite (text_ltb_total _ _ Hxy Hx).
  apply in_map, Hy.
Qed.

Lemma StronglySorted_filter {A} (R : A -> A -> Prop) f l :
  StronglySorted R l -> StronglySorted R (filter f l).
Proof.
  induction 1 as [|x l Hl IH Hx]; cbn [filter]; [constructor|].
  destruct (f x); [|exact IH].
  constructor; [exact IH|].
  rewrite Forall_forall in *. intros y Hy. apply Hx.
  apply filter_In in Hy. tauto.
Qed.

Lemma sorted_keys_perm {V} (d : dict V) :
  Permutation (map fst (sorted d)) (map fst d).
Proof. apply Permutation_map, sorted_perm. Qed.

Lemma extensions_sorted aggregated :
  NoDup (map fst aggregated) -> StronglySorted text_lt (extensions aggregated).
Proof.
  intros Hnd. unfold extensions. apply StronglySorted_filter.
  apply keys_strictly_sorted; [apply sorted_sorted|].
  apply (Permutation_NoDup (Permutation_sym (sorted_keys_perm aggregated))).
  exact Hnd.
Qed.

Lemma In_extensions aggregated e :
  In e (extensions aggregated) <-> In e (map fst aggregated) /\ e <> [].
Proof.
  unfold extensions. rewrite filter_In. change (lit "") with (@nil N).
  split; intros [Hin Hne]; split.
  - apply (Permutation_in _ (sorted_keys_perm aggregated)), Hin.
  - destruct (text_eqb_spec e []); [discriminate|assumption].
  - apply (Permutation_in _ (Permutation_sym (sorted_keys_perm aggregated))).
    exact Hin.
  - destruct (text_eqb_spec e []); [contradiction|reflexivity].
Qed.

(** ** The rendered document *)

Lemma unlines_app a b : unlines (a ++ b) = unlines a ++ unlines b.
Proof. unfold unlines. now rewrite map_app, concat_app. Qed.

Lemma str_join_blank ls : str_join [LF] (ls ++ [[]]) = unlines ls.
Proof.
  induction ls as [|l ls IH]; [reflexivity|].
  change (unlines (l :: ls)) with ((l ++ [LF]) ++ unlines ls).
  rewrite <- IH, <- app_assoc. cbn [app str_join].
  destruct (ls ++ [[]]) eqn:E; [|reflexivity].
  destruct ls; discriminate.
Qed.

Lemma section_lines_blank ext a :
  exists body,
    section_lines ext a = body ++ [[]] /\ unlines body = section_text ext a.
Proof.
  unfold section_lines, section_text.
  destruct (determine_setting (indent_style_votes a) space);
    eexists [_; _; _; _; _]; split; reflexivity.
Qed.

Lemma rendered_lines items : forall lines,
  fold_left
    (fun lines (item : text * Tallies) =>
       if text_eqb (fst item) (lit "") then lines
       else lines ++ section_lines (fst item) (snd item))
    items (lines ++ [[]])
  = (lines
     ++ flat_map
          (fun item : text * Tallies =>
             if text_eqb (fst item) (lit "") then []
             else [] :: removelast (section_lines (fst item) (snd item)))
          items)
    ++ [[]].
Proof.
  induction items as [|[e a] items IH]; intros lines;
    cbn [fold_left flat_map fst snd].
  - now rewrite app_nil_r.
  - destruct (text_eqb e (lit "")); [apply IH|].
    destruct (section_lines_blank e a) as (body & Hb & _). rewrite Hb.
    rewrite removelast_last. unfold text in *.
    rewrite (app_assoc (lines ++ [[]]) body [[]]).
    rewrite (IH ((lines ++ [[]]) ++ body)), <- !app_assoc. reflexivity.
Qed.

Lemma generate_editorconfig_sections aggregated :
  generate_editorconfig aggregated
  = universal_section
    ++ concat
         (map (fun item : text * Tallies =>
                 if text_eqb (fst item) (lit "") then []
                 else [LF] ++ section_text (fst item) (snd item))
              (sorted aggregated)).
Proof.
  unfold generate_editorconfig.
  pose proof (rendered_lines (sorted aggregated) (removelast preamble)) as Hl.
  change (removelast preamble ++ [[]]) with preamble in Hl.
  cbv zeta. rewrite Hl, str_join_blank, unlines_app.
  clear Hl. f_equal. induction (sorted aggregated) as [|[e a] items IH];
    [reflexivity|].
  cbn [flat_map map concat fst snd]. rewrite unlines_app, IH. f_equal.
  destruct (text_eqb e (lit "")); [reflexivity|].
  destruct (section_lines_blank e a) as (body & Hb & <-).
  rewrite Hb, removelast_last. reflexivity.
Qed.

Lemma generate_editorconfig_extensions aggregated :
  NoDup (map fst aggregated) ->
  generate_editorconfig aggregated
  = universal_section
    ++ concat
         (map (fun e => [LF] ++ section_text e (tallies_of aggregated e))
              (extensions aggregated)).
Proof.
  intros Hnd. rewrite generate_editorconfig_sections. f_equal.
  unfold extensions.
  assert (forall item, In item (sorted aggregated) ->
                       tallies_of aggregated (fst item) = snd item) as Hget.
  { intros [e a] Hin. unfold tallies_of. cbn [fst snd].
    rewrite (dict_get_In aggregated e a Hnd); [reflexivity|].
    apply (Permutation_in _ (sorted_perm aggregated)), Hin. }
  induction (sorted aggregated) as [|[e a] items IH]; [reflexivity|].
  cbn [map filter concat fst snd].
  rewrite IH by (intros item Hin; apply Hget; right; exact Hin).
  destruct (text_eqb e (lit "")); cbn [negb]; [reflexivity|].
  cbn [map concat]. pose proof (Hget (e, a) (or_introl eq_refl)) as He.
  cbn [fst snd] in He. rewrite He. reflexivity.
Qed.

(** C6: the document is the universal wildcard section, whatever the
    analyzed files, followed by one section for each non-empty extension,
    in the lexicographic order of the extensions; a blank line precedes
    each section, which has the selector of the extension, [indent_style],
    [indent_size] (the number for spaces, the word tab for tabs),
    [end_of_line] and [charset]. *)
Theorem rendered_document aggregated :
  NoDup (map fst aggregated) ->
  exists exts,
    StronglySorted text_lt exts
    /\ (forall e, In e exts <-> In e (map fst aggregated) /\ e <> [])
    /\ generate_editorconfig aggregated
       = universal_section
         ++ concat
              (map (fun e => [LF] ++ section_text e (tallies_of aggregated e))
                   exts).
Proof.
  intros Hnd. exists (extensions aggregated).
  split; [apply extensions_sorted, Hnd|].
  split; [apply In_extensions|].
  apply generate_editorconfig_extensions, Hnd.
Qed.

(** ** The scan *)

Section ScanFacts.
Variable host_big_endian : bool.
Variable fs : text -> option (list byte).
Variable from_file : text -> option text.
Variable splitext : text -> text * text.
Variable lower : text -> text.

Lemma identifiable_iff props :
  identifiable props = true
  <-> indent_style props <> None /\ eol props <> None.
Proof.
  unfold identifiable.
  destruct (indent_style props), (eol props);
    (split;
     [intros Hid; try discriminate; split; congruence
     |intros [Hs He]; try reflexivity; congruence]).
Qed.

Lemma scan_app files1 files2 :
  scan host_big_endian fs from_file splitext lower (files1 ++ files2)
  = fold_left (scan_file host_big_endian fs from_file splitext lower) files2
              (scan host_big_endian fs from_file splitext lower files1).
Proof. apply fold_left_app. Qed.

Lemma scan_file_unreadable filepath file_properties :
  fs filepath = None ->
  scan_file host_big_endian fs from_file splitext lower file_properties
            filepath
  = file_properties.
Proof.
  intros Hfs. unfold scan_file.
  destruct (is_binary_file from_file filepath); [reflexivity|].
  rewrite (analyze_file_unreadable _ _ _ Hfs). reflexivity.
Qed.

(** C1 as the code has it: a record is kept for aggregation exactly when
    its [indent_style] and its [eol] are both non-null, and dropped when
    either is null; a record with an [eol] and without [indent_style] is
    dropped, so neither its [eol] nor its [charset] votes. *)
Theorem record_kept_iff_style_and_eol file_properties filepath :
  is_binary_file from_file filepath = false ->
  let props := analyze_file host_big_endian fs filepath in
  let scanned :=
    scan_file host_big_endian fs from_file splitext lower file_properties
              filepath in
  (indent_style props <> None /\ eol props <> None ->
   scanned
   = dict_update [] (get_file_extension splitext lower filepath)
                 (fun l => l ++ [props]) file_properties)
  /\ (indent_style props = None \/ eol props = None ->
      scanned = file_properties)
  /\ (indent_style props = None -> eol props <> None ->
      aggregate_properties scanned = aggregate_properties file_properties).
Proof.
  intros Hbin props scanned. subst scanned. unfold scan_file. rewrite Hbin.
  fold props.
  destruct (identifiable props) eqn:Hid.
  - apply identifiable_iff in Hid as [Hs He].
    split; [reflexivity|]. split.
    + intros [Hnone|Hnone]; contradiction.
    + intros Hnone _. contradiction.
  - assert (~ (indent_style props <> None /\ eol props <> None)) as Hn.
    { intros H. apply identifiable_iff in H. congruence. }
    split; [intros H; contradiction|]. split; reflexivity.
Qed.

(** C8: [analyze_file] returns a record for every input: the dictionary
    as the body of the [try] left it, whether the body returned or
    raised; decoding never raises, Latin-1 being total; the body raises
    only when the file cannot be read, with nothing stored yet, so the
    record is all null; the caller then drops the file and the scan goes
    on with the other files. *)
Theorem analyze_file_never_raises filepath :
  (exists r, analyze_body host_big_endian fs filepath init_properties
             = (r, analyze_file host_big_endian fs filepath))
  /\ (forall raw p, exists t cs,
         detect_charset host_big_endian raw p = (Return t, set_charset cs p))
  /\ (forall e p,
         analyze_body host_big_endian fs filepath init_properties
         = (Raise e, p) ->
         e = OSError /\ fs filepath = None /\ p = init_properties)
  /\ (fs filepath = None ->
      analyze_file host_big_endian fs filepath = init_properties)
  /\ (fs filepath = None ->
      forall file_properties,
        scan_file host_big_endian fs from_file splitext lower
                  file_properties filepath
        = file_properties)
  /\ (fs filepath = None ->
      forall before after,
        scan host_big_endian fs from_file splitext lower
             (before ++ filepath :: after)
        = scan host_big_endian fs from_file splitext lower
               (before ++ after)).
Proof.
  split; [|split; [|split; [|split; [|split]]]].
  - unfold analyze_file.
    destruct (analyze_body host_big_endian fs filepath init_properties)
      as [r p]. exists r. reflexivity.
  - intros raw p. eexists _, _. apply detect_charset_detected.
  - intros e p. unfold analyze_body, open_read.
    destruct (fs filepath) as [raw|] eqn:Hfs.
    + unfold bind at 1. unfold ret at 1.
      unfold bind at 1. rewrite detect_charset_detected.
      unfold eol_counter, most_common1, item0, bind, ret, store;
        cbn [truthy fst].
      destruct (indent_counter (snd (detected host_big_endian raw)))
        as [|x xs]; cbn [truthy]; [discriminate|].
      destruct (is_space (fst (max_item x xs))); cbn [andb];
        [|discriminate].
      destruct (indent_sizes (snd (detected host_big_endian raw)))
        as [|w [|w' ws]]; discriminate.
    + unfold bind, raise. intros Heq. injection Heq as <- <-. auto.
  - apply analyze_file_unreadable.
  - intros Hfs fp. apply scan_file_unreadable, Hfs.
  - intros Hfs before after. rewrite !scan_app. cbn [fold_left].
    rewrite (scan_file_unreadable _ _ Hfs). reflexivity.
Qed.
End ScanFacts.

(** ** Independence of the order of the votes *)

Section TieFacts.
Context {K : Type} `{EqDec K}.
Implicit Types (c : Counter K) (k : K) (vs : list K).

Lemma tally_same_counts vs1 vs2 :
  Permutation vs1 vs2 -> same_counts (tally vs1) (tally vs2).
Proof.
  intros Hperm. split; intros k.
  - unfold tally. rewrite !In_keys_update. cbn [keys map In].
    split; intros [Hin|[]]; left.
    + apply (Permutation_in _ Hperm), Hin.
    + apply (Permutation_in _ (Permutation_sym Hperm)), Hin.
  - rewrite !counter_get_tally. f_equal.
    apply Permutation_count_occ, Hperm.
Qed.

Lemma max_item_is_max x xs :
  NoDup (keys (x :: xs)) -> is_max (x :: xs) (fst (max_item x xs)).
Proof.
  intros Hnd.
  destruct (max_item_first x xs) as (c1 & c2 & Heq & H1 & H2).
  set (b := max_item x xs) in *.
  assert (In b (x :: xs)) as Hb by (rewrite Heq; apply in_elt).
  assert (counter_get (fst b) (x :: xs) = snd b) as Hget.
  { apply counter_get_In; [exact Hnd|]. destruct b; exact Hb. }
  split.
  - apply in_map, Hb.
  - intros k' Hk'. rewrite Hget.
    destruct (In_keys_exists _ _ Hk') as [m Hm].
    rewrite (counter_get_In _ _ _ Hnd Hm).
    rewrite Heq in Hm. apply in_app_iff in Hm as [Hm|[Hm|Hm]].
    + specialize (H1 _ Hm). cbn [snd] in H1. lia.
    + rewrite Hm. cbn [snd]. lia.
    + specialize (H2 _ Hm). exact H2.
Qed.

Lemma is_max_same_counts c1 c2 k :
  same_counts c1 c2 -> is_max c2 k -> is_max c1 k.
Proof.
  intros [Hkeys Hget] [Hin Hmax]. split.
  - apply Hkeys, Hin.
  - intros k' Hk'. rewrite !Hget. apply Hmax, Hkeys, Hk'.
Qed.

Lemma determine_setting_same_counts c1 c2 default :
  NoDup (keys c1) -> NoDup (keys c2) -> same_counts c1 c2 -> untied c1 ->
  determine_setting c1 default = determine_setting c2 default.
Proof.
  intros Hnd1 Hnd2 Hsame Huntied.
  destruct c1 as [|x xs], c2 as [|y ys]; [reflexivity|..].
  - exfalso. destruct Hsame as [Hkeys _].
    apply (Hkeys (fst y)). left. reflexivity.
  - exfalso. destruct Hsame as [Hkeys _].
    apply (Hkeys (fst x)). left. reflexivity.
  - unfold determine_setting. cbn [truthy negb most_common1].
    pose proof (max_item_is_max x xs Hnd1) as Hm1.
    pose proof (max_item_is_max y ys Hnd2) as Hm2.
    apply (is_max_same_counts _ _ _ Hsame) in Hm2.
    specialize (Huntied _ _ Hm1 Hm2).
    destruct (max_item x xs), (max_item y ys). exact Huntied.
Qed.
End TieFacts.

Lemma non_null_perm {A} (field : FileProperties -> option A) rs1 rs2 :
  Permutation rs1 rs2 ->
  Permutation (non_null field rs1) (non_null field rs2).
Proof. intros Hperm. unfold non_null. apply Permutation_flat_map, Hperm. Qed.

Lemma section_text_same_counts ext rs1 rs2 :
  Permutation rs1 rs2 ->
  let a1 := mkTallies (tally (non_null indent_style rs1))
                      (tally (non_null truthy_size rs1))
                      (tally (non_null eol rs1))
                      (tally (non_null charset rs1)) in
  let a2 := mkTallies (tally (non_null indent_style rs2))
                      (tally (non_null truthy_size rs2))
                      (tally (non_null eol rs2))
                      (tally (non_null charset rs2)) in
  no_tie a1 -> section_text ext a1 = section_text ext a2.
Proof.
  intros Hperm a1 a2 (Hs & Hz & He & Hc). subst a1 a2.
  cbn [indent_style_votes indent_size_votes eol_votes charset_votes] in *.
  unfold section_text.
  cbn [indent_style_votes indent_size_votes eol_votes charset_votes].
  rewrite (determine_setting_same_counts
             (tally (non_null indent_style rs1))
             (tally (non_null indent_style rs2)) space);
    [|apply NoDup_keys_tally..|apply tally_same_counts, non_null_perm, Hperm
     |exact Hs].
  rewrite (determine_setting_same_counts
             (tally (non_null truthy_size rs1))
             (tally (non_null truthy_size rs2)) 4%Z);
    [|apply NoDup_keys_tally..|apply tally_same_counts, non_null_perm, Hperm
     |exact Hz].
  rewrite (determine_setting_same_counts
             (tally (non_null eol rs1)) (tally (non_null eol rs2)) lf);
    [|apply NoDup_keys_tally..|apply tally_same_counts, non_null_perm, Hperm
     |exact He].
  rewrite (determine_setting_same_counts
             (tally (non_null charset rs1)) (tally (non_null charset rs2))
             utf_8);
    [|apply NoDup_keys_tally..|apply tally_same_counts, non_null_perm, Hperm
     |exact Hc].
  reflexivity.
Qed.

Lemma sorted_unique l1 : forall l2,
  StronglySorted text_lt l1 -> StronglySorted text_lt l2 ->
  (forall e, In e l1 <-> In e l2) -> l1 = l2.
Proof.
  assert (forall a l, StronglySorted text_lt (a :: l) -> ~ In a l) as Hfresh.
  { intros a l Hs Hin. inversion Hs as [|? ? _ Hall]; subst.
    rewrite Forall_forall in Hall. specialize (Hall a Hin).
    unfold text_lt in Hall. rewrite text_ltb_irrefl in Hall. discriminate. }
  induction l1 as [|a l1 IH]; intros [|b l2] Hs1 Hs2 Hiff.
  - reflexivity.
  - exfalso. apply (Hiff b). left. reflexivity.
  - exfalso. apply (Hiff a). left. reflexivity.
  - assert (a = b) as ->.
    { inversion Hs1 as [|? ? _ Ha]; inversion Hs2 as [|? ? _ Hb]; subst.
      rewrite Forall_forall in Ha, Hb.
      destruct (proj1 (Hiff a) (or_introl eq_refl)) as [Hab|Hab]; [auto|].
      destruct (proj2 (Hiff b) (or_introl eq_refl)) as [Hba|Hba]; [auto|].
      specialize (Ha b Hba). specialize (Hb a Hab). unfold text_lt in *.
      rewrite (text_ltb_asym _ _ Ha) in Hb. discriminate. }
    f_equal. apply IH.
    + inversion Hs1; assumption.
    + inversion Hs2; assumption.
    + intros e. split; intros Hin.
      * destruct (proj1 (Hiff e) (or_intror Hin)) as [<-|]; [|assumption].
        exfalso. apply (Hfresh _ _ Hs1), Hin.
      * destruct (proj2 (Hiff e) (or_intror Hin)) as [<-|]; [|assumption].
        exfalso. apply (Hfresh _ _ Hs2), Hin.
Qed.

(** ** The keys of [aggregated] *)

Lemma NoDup_keys_vote_tag {K} (vote : K -> Tallies -> Tallies) ext value
      aggregated :
  NoDup (map fst aggregated) ->
  NoDup (map fst (vote_tag vote ext value aggregated)).
Proof.
  intros Hnd. destruct value; cbn [vote_tag]; [|exact Hnd].
  apply NoDup_dict_keys_update, Hnd.
Qed.

Lemma NoDup_keys_vote_int vote ext value aggregated :
  NoDup (map fst aggregated) ->
  NoDup (map fst (vote_int vote ext value aggregated)).
Proof.
  intros Hnd. destruct value as [v|]; cbn [vote_int]; [|exact Hnd].
  destruct (v =? 0)%Z; [exact Hnd|]. apply NoDup_dict_keys_update, Hnd.
Qed.

Lemma In_keys_vote_tag {K} (vote : K -> Tallies -> Tallies) ext value
      aggregated e :
  In e (map fst (vote_tag vote ext value aggregated))
  <-> In e (map fst aggregated) \/ (e = ext /\ value <> None).
Proof.
  destruct value as [v|]; cbn [vote_tag].
  - rewrite In_dict_keys_update. split.
    + intros [->|Hin]; [right; split; [reflexivity|discriminate]|auto].
    + intros [Hin|[-> _]]; auto.
  - split; [auto|]. intros [Hin|[_ Hn]]; [exact Hin|contradiction].
Qed.

Lemma In_keys_vote_int vote ext (p : FileProperties) aggregated e :
  In e (map fst (vote_int vote ext (indent_size p) aggregated))
  <-> In e (map fst aggregated) \/ (e = ext /\ truthy_size p <> None).
Proof.
  unfold truthy_size. destruct (indent_size p) as [v|]; cbn [vote_int].
  - destruct (v =? 0)%Z.
    + split; [auto|]. intros [Hin|[_ Hn]]; [exact Hin|contradiction].
    + rewrite In_dict_keys_update. split.
      * intros [->|Hin]; [right; split; [reflexivity|discriminate]|auto].
      * intros [Hin|[-> _]]; auto.
  - split; [auto|]. intros [Hin|[_ Hn]]; [exact Hin|contradiction].
Qed.

Lemma In_keys_aggregate_props ext aggregated p e :
  In e (map fst (aggregate_props ext aggregated p))
  <-> In e (map fst aggregated) \/ (e = ext /\ has_vote p = true).
Proof.
  unfold aggregate_props.
  rewrite !In_keys_vote_tag, In_keys_vote_int, In_keys_vote_tag.
  unfold has_vote.
  destruct (indent_style p), (truthy_size p), (eol p), (charset p);
    intuition congruence.
Qed.

Lemma NoDup_keys_aggregate_props ext aggregated p :
  NoDup (map fst aggregated) ->
  NoDup (map fst (aggregate_props ext aggregated p)).
Proof.
  intros Hnd. unfold aggregate_props.
  apply NoDup_keys_vote_tag, NoDup_keys_vote_tag, NoDup_keys_vote_int,
    NoDup_keys_vote_tag, Hnd.
Qed.

Lemma In_keys_fold_props ext records : forall aggregated e,
  In e (map fst (fold_left (aggregate_props ext) records aggregated))
  <-> In e (map fst aggregated)
      \/ (e = ext /\ exists p, In p records /\ has_vote p = true).
Proof.
  induction records as [|p records IH]; intros aggregated e;
    cbn [fold_left].
  - split; [auto|]. intros [Hin|[_ (p & [] & _)]]. exact Hin.
  - rewrite IH, In_keys_aggregate_props. split.
    + intros [[Hin|[-> Hv]]|[-> (q & Hq & Hv)]]; auto.
      * right. split; [reflexivity|]. exists p. split; [left|]; auto.
      * right. split; [reflexivity|]. exists q. split; [right|]; auto.
    + intros [Hin|[-> (q & [<-|Hq] & Hv)]]; auto.
      right. split; [reflexivity|]. exists q. auto.
Qed.

Lemma NoDup_keys_fold_props ext records : forall aggregated,
  NoDup (map fst aggregated) ->
  NoDup (map fst (fold_left (aggregate_props ext) records aggregated)).
Proof.
  induction records as [|p records IH]; intros aggregated Hnd;
    cbn [fold_left]; [exact Hnd|].
  apply IH, NoDup_keys_aggregate_props, Hnd.
Qed.

Lemma In_records_of file_properties e p :
  In p (records_of file_properties e)
  <-> exists item, In item file_properties /\ fst item = e /\ In p (snd item).
Proof.
  unfold records_of. rewrite in_flat_map. split.
  - intros (item & Hitem & Hp).
    destruct (text_eqb_spec e (fst item)) as [->|]; [|contradiction].
    exists item. auto.
  - intros (item & Hitem & <- & Hp). exists item. split; [exact Hitem|].
    rewrite text_eqb_refl. exact Hp.
Qed.

Lemma In_keys_aggregate_from file_properties : forall aggregated e,
  In e (map fst
          (fold_left
             (fun aggregated item =>
                fold_left (aggregate_props (fst item)) (snd item) aggregated)
             file_properties aggregated))
  <-> In e (map fst aggregated)
      \/ exists p, In p (records_of file_properties e) /\ has_vote p = true.
Proof.
  induction file_properties as [|[k records] fp IH]; intros aggregated e;
    cbn [fold_left fst snd].
  - split; [auto|]. intros [Hin|(p & [] & _)]. exact Hin.
  - rewrite IH, In_keys_fold_props.
    cbn [records_of flat_map fst snd]. fold (records_of fp e).
    split.
    + intros [[Hin|[-> (p & Hp & Hv)]]|(p & Hp & Hv)]; auto.
      * right. exists p. split; [|exact Hv].
        rewrite text_eqb_refl. apply in_app_iff. auto.
      * right. exists p. split; [|exact Hv]. apply in_app_iff. auto.
    + intros [Hin|(p & Hp & Hv)]; auto.
      apply in_app_iff in Hp as [Hp|Hp].
      * destruct (text_eqb_spec e k) as [->|]; [|contradiction].
        left. right. split; [reflexivity|]. exists p. auto.
      * right. exists p. auto.
Qed.

Lemma In_keys_aggregate_properties file_properties e :
  In e (map fst (aggregate_properties file_properties))
  <-> exists p, In p (records_of file_properties e) /\ has_vote p = true.
Proof.
  unfold aggregate_properties. rewrite In_keys_aggregate_from.
  cbn [map In]. tauto.
Qed.

Lemma NoDup_keys_aggregate_properties file_properties :
  NoDup (map fst (aggregate_properties file_properties)).
Proof.
  unfold aggregate_properties.
  assert (NoDup (map fst (@nil (text * Tallies)))) as Hnd by constructor.
  revert Hnd. generalize (@nil (text * Tallies)).
  induction file_properties as [|[k records] fp IH]; intros aggregated Hnd;
    cbn [fold_left fst snd]; [exact Hnd|].
  apply IH, NoDup_keys_fold_props, Hnd.
Qed.

Lemma records_of_append d k v ext :
  Permutation
    (records_of (dict_update [] k (fun l => l ++ [v]) d) ext)
    (records_of d ext ++ if text_eqb ext k then [v] else []).
Proof.
  induction d as [|[k0 l0] d IH]; cbn [dict_update].
  - cbn [records_of flat_map fst snd app]. rewrite app_nil_r. reflexivity.
  - destruct (text_eqb_spec k k0) as [->|Hk];
      cbn [records_of flat_map fst snd]; fold (records_of d ext).
    + destruct (text_eqb ext k0).
      * rewrite <- !app_assoc. apply Permutation_app_head, Permutation_app_comm.
      * rewrite app_nil_r. reflexivity.
    + fold (records_of (dict_update [] k (fun l => l ++ [v]) d) ext).
      rewrite IH, app_assoc. reflexivity.
Qed.

(** ** The order of the scan *)

Section ScanOrder.
Variable host_big_endian : bool.
Variable fs : text -> option (list byte).
Variable from_file : text -> option text.
Variable splitext : text -> text * text.
Variable lower : text -> text.

Lemma records_of_scan_file fp f ext :
  Permutation
    (records_of (scan_file host_big_endian fs from_file splitext lower fp f)
                ext)
    (records_of fp ext
     ++ contributions host_big_endian fs from_file splitext lower ext [f]).
Proof.
  unfold contributions, kept, scan_file. cbn [flat_map].
  rewrite app_nil_r.
  destruct (is_binary_file from_file f); cbn [negb andb];
    [rewrite app_nil_r; reflexivity|].
  destruct (identifiable (analyze_file host_big_endian fs f)); cbn [andb];
    [|rewrite app_nil_r; reflexivity].
  apply records_of_append.
Qed.

Lemma records_of_scan_from files : forall fp ext,
  Permutation
    (records_of
       (fold_left (scan_file host_big_endian fs from_file splitext lower)
                  files fp) ext)
    (records_of fp ext
     ++ contributions host_big_endian fs from_file splitext lower ext files).
Proof.
  induction files as [|f files IH]; intros fp ext; cbn [fold_left].
  - unfold contributions. cbn [flat_map]. rewrite app_nil_r. reflexivity.
  - rewrite IH, records_of_scan_file, <- app_assoc.
    apply Permutation_app_head. unfold contributions. cbn [flat_map].
    rewrite app_nil_r. reflexivity.
Qed.

Lemma records_of_scan_perm files1 files2 ext :
  Permutation files1 files2 ->
  Permutation
    (records_of (scan host_big_endian fs from_file splitext lower files1) ext)
    (records_of (scan host_big_endian fs from_file splitext lower files2) ext).
Proof.
  intros Hperm. unfold scan. rewrite !records_of_scan_from.
  cbn [records_of flat_map app]. unfold contributions.
  apply Permutation_flat_map, Hperm.
Qed.

(** C7 as the code has it: two runs over the same files, with overwrite
    enabled, write the same content whatever the orders of their scans,
    provided that no counter of an extension has a tie; the order of the
    scan, which is the order of iteration over a set, only decides the
    ties. *)
Theorem content_independent_of_scan_order_without_tie
    editorconfig_exists magic_available write_succeeds files1 files2 :
  Permutation files1 files2 ->
  (forall ext,
      no_tie (tallies_of
                (aggregate_properties
                   (scan host_big_endian fs from_file splitext lower files1))
                ext)) ->
  editorconfig_content host_big_endian fs from_file splitext lower files1
  = editorconfig_content host_big_endian fs from_file splitext lower files2
  /\ main host_big_endian fs from_file splitext lower editorconfig_exists
          magic_available write_succeeds true files1
     = main host_big_endian fs from_file splitext lower editorconfig_exists
            magic_available write_succeeds true files2.
Proof.
  intros Hperm Hno.
  assert (editorconfig_content host_big_endian fs from_file splitext lower
                               files1
          = editorconfig_content host_big_endian fs from_file splitext lower
                                 files2) as Hcontent;
    [|split; [exact Hcontent|unfold main; rewrite Hcontent; reflexivity]].
  unfold editorconfig_content.
  set (fp1 := scan host_big_endian fs from_file splitext lower files1) in *.
  set (fp2 := scan host_big_endian fs from_file splitext lower files2).
  assert (forall ext, Permutation (records_of fp1 ext) (records_of fp2 ext))
    as Hrec by (intros ext; apply records_of_scan_perm, Hperm).
  rewrite !generate_editorconfig_extensions
    by apply NoDup_keys_aggregate_properties.
  f_equal.
  assert (extensions (aggregate_properties fp1)
          = extensions (aggregate_properties fp2)) as <-.
  { apply sorted_unique;
      try (apply extensions_sorted, NoDup_keys_aggregate_properties).
    intros e. rewrite !In_extensions, !In_keys_aggregate_properties.
    split; intros [(p & Hp & Hv) Hne]; (split; [|exact Hne]); exists p;
      (split; [|exact Hv]).
    - apply (Permutation_in _ (Hrec e)), Hp.
    - apply (Permutation_in _ (Permutation_sym (Hrec e))), Hp. }
  f_equal. apply map_ext. intros e. f_equal.
  specialize (Hno e). rewrite tallies_of_records in Hno.
  rewrite !tallies_of_records.
  apply section_text_same_counts; [apply Hrec|exact Hno].
Qed.
End ScanOrder.

(** ** Examples *)

(** C1 as stated fails: the record of a file with line terminators and no
    indented line has an [eol] and no [indent_style]; it is not null in
    both, yet the scan drops it and nothing votes. *)
Lemma eol_only_record_is_dropped :
  let props := analyze_file false (demo_fs notes_files) (lit "notes.txt") in
  eol props = Some lf /\ charset props = Some utf_8
  /\ indent_style props = None
  /\ demo_scan notes_files ["notes.txt"%string] = []
  /\ aggregate_properties (demo_scan notes_files ["notes.txt"%string]) = [].
Proof. vm_compute. repeat split. Qed.

Lemma record_kept_iff_style_and_eol_witness :
  scan_file false (demo_fs notes_files) demo_from_file posix_splitext
            ascii_lower [] (lit "notes.txt") = [].
Proof.
  destruct (record_kept_iff_style_and_eol
              false (demo_fs notes_files) demo_from_file posix_splitext
              ascii_lower [] (lit "notes.txt") eq_refl) as (_ & Hdrop & _).
  apply Hdrop. left. reflexivity.
Defined.

Lemma eol_without_terminator_is_crlf_witness :
  eol (analyze_file false (demo_fs unterminated_files) (lit "one.py"))
  = Some crlf.
Proof.
  apply (eol_without_terminator_is_crlf
           false (demo_fs unterminated_files) (lit "one.py")
           (list_byte_of_string "  x") eq_refl);
    vm_compute; intuition discriminate.
Defined.

(** The empty file has [eol] crlf too, and the one-line file of the
    example brings crlf into the section of its extension. *)
Lemma eol_of_empty_file :
  eol (analyze_file false (demo_fs empty_files) (lit "empty.txt"))
  = Some crlf.
Proof. reflexivity. Qed.

Lemma unterminated_file_votes_crlf :
  demo_content unterminated_files ["one.py"%string]
  = universal_section
    ++ [LF]
    ++ unlines [lit "[*.py]"; lit "indent_style = space";
                lit "indent_size = 2"; lit "end_of_line = crlf";
                lit "charset = utf-8"].
Proof. vm_compute. reflexivity. Qed.

Lemma eol_is_dominant_terminator_witness :
  eol (analyze_file false (demo_fs dos_files) (lit "dos.txt")) = Some crlf.
Proof.
  destruct (eol_is_dominant_terminator
              false (demo_fs dos_files) (lit "dos.txt")
              (list_byte_of_string (snd (hd (""%string, ""%string) dos_files)))
              eq_refl)
    as (e & He & _ & _ & _ & _ & _ & Hdom).
  - vm_compute. discriminate.
  - rewrite He. f_equal. apply Hdom; vm_compute; repeat constructor.
Defined.

Lemma aggregation_selects_mode_witness :
  determine_setting
    (eol_votes (tallies_of (aggregate_properties [(lit ".x", x_records)])
                           (lit ".x"))) lf
  = lf.
Proof.
  destruct (aggregation_selects_mode
              [(lit ".x", x_records)] (lit ".x") x_records)
    as (_ & _ & _ & _ & Hx).
  - repeat constructor. intros [].
  - reflexivity.
  - intros p n [<-|[<-|[<-|[]]]] Hn; inversion Hn; lia.
  - apply Hx; [reflexivity|]. apply perm_skip, perm_swap.
Defined.

Lemma indentation_of_file_witness :
  indent_size (analyze_file false (demo_fs mixed_files) (lit "mixed.py"))
  = Some 2%Z.
Proof.
  destruct (indentation_of_file
              false (demo_fs mixed_files) (lit "mixed.py")
              (list_byte_of_string
                 (snd (hd (""%string, ""%string) mixed_files)))
              eq_refl)
    as (_ & _ & _ & _ & _ & _ & _ & Hmix).
  apply Hmix.
  - intros line Hin Hv. vm_compute in Hin.
    destruct Hin as [<-|[<-|[<-|[]]]]; vm_compute in Hv |- *; auto.
    contradiction.
  - eexists. split; [right; left; reflexivity|].
    split; [discriminate|reflexivity].
  - eexists. split; [right; right; left; reflexivity|].
    split; [discriminate|reflexivity].
Defined.

Lemma rendered_document_witness :
  exists exts,
    StronglySorted text_lt exts
    /\ (forall e,
           In e exts
           <-> In e (map fst (aggregate_properties [(lit ".x", x_records)]))
               /\ e <> [])
    /\ generate_editorconfig (aggregate_properties [(lit ".x", x_records)])
       = universal_section
         ++ concat
              (map (fun e =>
                      [LF]
                      ++ section_text
                           e (tallies_of
                                (aggregate_properties [(lit ".x", x_records)])
                                e))
                   exts).
Proof.
  apply rendered_document. repeat constructor. intros [].
Defined.

Lemma indent_size_only_for_spaces_witness :
  indent_style (analyze_file false (demo_fs mixed_files) (lit "mixed.py"))
  = Some space.
Proof.
  apply (indent_size_only_for_spaces
           false (demo_fs mixed_files) (lit "mixed.py") 2%Z).
  reflexivity.
Defined.

Lemma indent_style_tie_first_line_witness :
  exists before line after s,
    splitlines (snd (detected false
                       (list_byte_of_string
                          (snd (hd (""%string, ""%string) tie_in_file)))))
    = before ++ line :: after
    /\ (forall l, In l before -> line_vote l = None)
    /\ line_vote line = Some s
    /\ indent_style (analyze_file false (demo_fs tie_in_file) (lit "tie.c"))
       = Some s.
Proof.
  apply (indent_style_tie_first_line
           false (demo_fs tie_in_file) (lit "tie.c") _ eq_refl).
  - reflexivity.
  - vm_compute. discriminate.
Defined.

(** In the file of the example the first voting line starts with a tab. *)
Lemma tie_in_file_is_tab :
  tab_votes (lit ("a" ++ nl ++ tabs ++ "b" ++ nl ++ "  c" ++ nl)) = 1
  /\ space_votes (lit ("a" ++ nl ++ tabs ++ "b" ++ nl ++ "  c" ++ nl)) = 1
  /\ indent_style (analyze_file false (demo_fs tie_in_file) (lit "tie.c"))
     = Some tab.
Proof. vm_compute. repeat split. Qed.

(** C7 as stated fails: with one file indented by a tab and one by spaces
    for the same extension, the two orders of the scan give different
    documents. *)
Lemma scan_order_decides_tie :
  Permutation ["a.c"; "b.c"]%string ["b.c"; "a.c"]%string
  /\ demo_content tie_files ["a.c"; "b.c"]%string
     <> demo_content tie_files ["b.c"; "a.c"]%string
  /\ demo_main tie_files true ["a.c"; "b.c"]%string
     <> demo_main tie_files true ["b.c"; "a.c"]%string.
Proof.
  split; [apply perm_swap|]. split; vm_compute; discriminate.
Qed.

Lemma untied_single {K} `{EqDec K} (k : K) (n : Z) : untied [(k, n)].
Proof.
  intros k1 k2 [[<-|[]] _] [[<-|[]] _]. reflexivity.
Qed.

Lemma untied_nil {K} `{EqDec K} : untied (@nil (K * Z)).
Proof. intros k1 k2 [[] _]. Qed.

Lemma content_independent_of_scan_order_without_tie_witness :
  demo_content agreeing_files ["a.py"; "b.py"]%string
  = demo_content agreeing_files ["b.py"; "a.py"]%string
  /\ demo_main agreeing_files true ["a.py"; "b.py"]%string
     = demo_main agreeing_files true ["b.py"; "a.py"]%string.
Proof.
  apply (content_independent_of_scan_order_without_tie
           false (demo_fs agreeing_files) demo_from_file posix_splitext
           ascii_lower true true true (map lit ["a.py"; "b.py"]%string)
           (map lit ["b.py"; "a.py"]%string)).
  - apply perm_swap.
  - intros ext. unfold tallies_of.
    change (aggregate_properties
              (scan false (demo_fs agreeing_files) demo_from_file
                    posix_splitext ascii_lower
                    (map lit ["a.py"; "b.py"]%string)))
      with [(lit ".py",
             mkTallies [(space, 2%Z)] [(4%Z, 2%Z)] [(lf, 2%Z)]
                       [(utf_8, 2%Z)])].
    cbn [dict_get]. destruct (text_eqb ext (lit ".py"));
      repeat split; cbn [indent_style_votes indent_size_votes eol_votes
                         charset_votes no_votes];
      first [apply untied_single | apply untied_nil].
Defined.

(** * Further properties of the code *)

(** ** The analyzer *)

(** X1: the record of a file has an [eol] and a [charset] exactly when the
    file can be read; the record of a file that cannot be read has no
    field at all. *)
Theorem eol_and_charset_iff_readable be fs filepath :
  let p := analyze_file be fs filepath in
  (eol p <> None <-> fs filepath <> None)
  /\ (charset p <> None <-> fs filepath <> None)
  /\ (fs filepath = None -> indent_style p = None /\ indent_size p = None).
Proof.
  cbn zeta. destruct (fs filepath) as [raw|] eqn:Hfs.
  - rewrite (analyze_file_readable be fs filepath raw Hfs).
    cbn [analyzed eol charset].
    repeat split; intros; discriminate.
  - rewrite (analyze_file_unreadable be fs filepath Hfs).
    cbn [init_properties eol charset indent_style indent_size].
    repeat split; intros; try contradiction; reflexivity.
Qed.

Lemma length_by_kind (l : list Eol) :
  length l
  = count_occ Eol_eq_dec l crlf + count_occ Eol_eq_dec l cr
    + count_occ Eol_eq_dec l lf.
Proof.
  induction l as [|e l IH]; [reflexivity|].
  cbn [length count_occ]. rewrite IH. destruct e; eol_cases; lia.
Qed.

Lemma two_chars_bound (a b : N) t :
  a <> b ->
  count_occ N.eq_dec t a + count_occ N.eq_dec t b <= length t.
Proof.
  intros Hab. induction t as [|c t IH]; [reflexivity|].
  cbn [count_occ length].
  destruct (N.eq_dec c a), (N.eq_dec c b); try congruence; lia.
Qed.

(** X2: the three counts of line endings are never negative, their sum is
    the number of line terminators of the text, and a text of [n]
    characters has room for them: twice the CR LF count plus the two other
    counts is at most [n]. *)
Theorem eol_counts_bounds t :
  (0 <= crlf_count t)%Z /\ (0 <= cr_count t)%Z /\ (0 <= lf_count t)%Z
  /\ (crlf_count t + cr_count t + lf_count t
      = Z.of_nat (length (terminators t)))%Z
  /\ (2 * crlf_count t + cr_count t + lf_count t
      <= Z.of_nat (length t))%Z.
Proof.
  pose proof (two_chars_bound CR LF t ltac:(discriminate)) as Hb.
  pose proof (occurrences_cr t) as Hcr. pose proof (occurrences_lf t) as Hlf.
  rewrite str_count_char in Hcr, Hlf.
  rewrite occurrences_crlf, cr_count_occurrences, lf_count_occurrences.
  rewrite (length_by_kind (terminators t)). unfold occurrences in *.
  repeat split; lia.
Qed.

Lemma votes_of_length lines : length (votes_of lines) <= length lines.
Proof.
  induction lines as [|l lines IH]; [reflexivity|].
  unfold votes_of in *. cbn [flat_map length].
  destruct (line_vote l); cbn [app length]; lia.
Qed.

Lemma length_by_style (vs : list IndentStyle) :
  length vs = count_occ eq_dec vs tab + count_occ eq_dec vs space.
Proof.
  induction vs as [|v vs IH]; [reflexivity|].
  cbn [length count_occ]. rewrite IH.
  destruct v; destruct (eq_dec _ _); try discriminate; try contradiction;
    destruct (eq_dec _ _); try discriminate; try contradiction; lia.
Qed.

(** X3: after the loop over the lines, [indent_sizes] has one width for
    each space vote, every width is at least 1, every key of
    [indent_counter] has a count of at least 1, and the votes are not more
    than the lines. *)
Theorem indent_scan_invariants t :
  counter_get space (indent_counter t) = Z.of_nat (length (indent_sizes t))
  /\ Forall (fun w => (1 <= w)%Z) (indent_sizes t)
  /\ (forall k n, In (k, n) (indent_counter t) -> (1 <= n)%Z)
  /\ (counter_get tab (indent_counter t)
      + counter_get space (indent_counter t)
      <= Z.of_nat (length (splitlines t)))%Z.
Proof.
  rewrite indent_counter_votes, indent_sizes_widths, !counter_get_tally.
  split; [|split; [|split]].
  - unfold widths, votes. now rewrite widths_of_length.
  - apply Forall_forall. intros w Hw.
    pose proof (widths_of_positive _ _ Hw). lia.
  - intros k n Hin. apply In_tally in Hin as [Hk ->].
    apply (count_occ_In eq_dec) in Hk. lia.
  - pose proof (votes_of_length (splitlines t)) as Hl.
    fold (votes t) in Hl. rewrite (length_by_style (votes t)) in Hl. lia.
Qed.

Lemma line_vote_None_iff line :
  line_vote line = None <-> is_blank line = true \/ leading_run line = [].
Proof.
  unfold line_vote. destruct (is_blank line); [tauto|].
  destruct (leading_run line) as [|c r].
  - tauto.
  - destruct (N.eqb c TAB); split; try discriminate;
      intros [|]; discriminate.
Qed.

Lemma votes_of_nil_iff lines :
  votes_of lines = [] <-> forall l, In l lines -> line_vote l = None.
Proof.
  split.
  - intros Hnil l Hl. destruct (line_vote l) as [s|] eqn:Hv; [|reflexivity].
    assert (In s (votes_of lines)) as Hin
        by (apply votes_of_In; exists l; auto).
    rewrite Hnil in Hin. destruct Hin.
  - intros Hall. destruct (votes_of lines) as [|s vs] eqn:Hvs; [reflexivity|].
    assert (In s (votes_of lines)) as Hin by (rewrite Hvs; left; reflexivity).
    apply votes_of_In in Hin as (l & Hl & Hv).
    rewrite (Hall l Hl) in Hv. discriminate.
Qed.

(** X4: the record of a readable file has no [indent_style] exactly when
    every line is blank or starts with a character other than tab and
    space; it then has no [indent_size] either, and the scan of [main]
    leaves the file out. *)
Theorem no_indented_line_no_style be fs filepath raw :
  fs filepath = Some raw ->
  let t := snd (detected be raw) in
  let p := analyze_file be fs filepath in
  (indent_style p = None
   <-> forall line, In line (splitlines t) ->
                    is_blank line = true \/ leading_run line = [])
  /\ (indent_style p = None -> indent_size p = None)
  /\ (indent_style p = None ->
      forall from_file splitext lower file_properties,
        scan_file be fs from_file splitext lower file_properties filepath
        = file_properties).
Proof.
  intros Hfs t p.
  assert (indent_style p = None <-> votes t = []) as Hstyle.
  { subst p. rewrite (analyze_file_readable be fs filepath raw Hfs). fold t.
    split.
    - intros Hnone. destruct (votes t) as [|v vs] eqn:Hv; [reflexivity|].
      destruct (analyzed_indent_style_mode (fst (detected be raw)) t)
        as (w & Hw & _); [rewrite Hv; discriminate|congruence].
    - apply analyzed_indent_style_none. }
  split; [|split].
  - rewrite Hstyle. unfold votes. rewrite votes_of_nil_iff.
    split; intros H line Hin; apply line_vote_None_iff, H, Hin.
  - subst p. rewrite (analyze_file_readable be fs filepath raw Hfs).
    fold t. intros Hnone. rewrite analyzed_indent_size, Hnone. reflexivity.
  - intros Hnone from_file splitext lower fp. unfold scan_file.
    destruct (is_binary_file from_file filepath); [reflexivity|].
    fold p. unfold identifiable. rewrite Hnone. reflexivity.
Qed.

Lemma analyzed_space_widths cs t :
  indent_style (analyzed cs t) = Some space -> widths t <> [].
Proof.
  intros Hs. destruct (votes t) as [|v vs] eqn:Hv.
  - rewrite (analyzed_indent_style_none cs t Hv) in Hs. discriminate.
  - destruct (analyzed_indent_style_mode cs t) as (w & Hw & _ & Hfirst);
      [rewrite Hv; discriminate|].
    rewrite Hs in Hw. injection Hw as <-.
    destruct Hfirst as (pre & post & Hsplit & _).
    assert (In space (votes t)) as Hin by (rewrite Hsplit; apply in_elt).
    apply (count_occ_In eq_dec) in Hin.
    unfold widths, votes in *. intros Hnil.
    pose proof (widths_of_length (splitlines t)) as Hlen.
    rewrite Hnil in Hlen. cbn [length] in Hlen. lia.
Qed.

Lemma analyzed_space_size cs t :
  indent_style (analyzed cs t) = Some space ->
  exists g,
    indent_size (analyzed cs t) = Some g /\ (1 <= g)%Z
    /\ is_gcd_of (widths t) g.
Proof.
  intros Hs. pose proof (analyzed_space_widths cs t Hs) as Hne.
  destruct (analyzed_size_gcd cs t Hs Hne) as (g & Hg & Hgcd).
  exists g. split; [exact Hg|]. split; [|exact Hgcd].
  destruct Hgcd as (Hg0 & Hdiv & _).
  destruct (widths t) as [|w ws] eqn:Hws; [contradiction|].
  pose proof (widths_of_positive (splitlines t) w) as Hpos.
  fold (widths t) in Hpos. rewrite Hws in Hpos.
  specialize (Hpos (or_introl eq_refl)).
  assert (g <> 0)%Z; [|lia]. intros ->.
  assert (0 | w)%Z as Hz by (apply Hdiv; left; reflexivity).
  apply Z.divide_0_l in Hz. lia.
Qed.

(** X5: a record with [indent_style] space always has an [indent_size]:
    it is at least 1, it divides every recorded width and is not greater
    than any of them, and it is 1 as soon as two recorded widths are
    coprime. *)
Theorem space_style_has_size be fs filepath raw :
  fs filepath = Some raw ->
  let t := snd (detected be raw) in
  let p := analyze_file be fs filepath in
  indent_style p = Some space ->
  exists g,
    indent_size p = Some g /\ (1 <= g)%Z
    /\ (forall w, In w (indent_sizes t) -> (g | w)%Z /\ (g <= w)%Z)
    /\ (forall w1 w2, In w1 (indent_sizes t) -> In w2 (indent_sizes t) ->
                      Z.gcd w1 w2 = 1%Z -> g = 1%Z).
Proof.
  intros Hfs t p. subst p.
  rewrite (analyze_file_readable be fs filepath raw Hfs). fold t.
  set (cs := fst (detected be raw)). intros Hs.
  rewrite indent_sizes_widths.
  destruct (analyzed_space_size cs t Hs) as (g & Hg & Hg1 & Hg0 & Hdiv & _).
  exists g. split; [exact Hg|]. split; [exact Hg1|]. split.
  - intros w Hw. pose proof (widths_of_positive _ _ Hw) as Hpos.
    split; [apply Hdiv, Hw|]. apply Z.divide_pos_le; [lia|apply Hdiv, Hw].
  - intros w1 w2 H1 H2 Hcop.
    apply Z.divide_1_r_nonneg; [exact Hg0|].
    rewrite <- Hcop. apply Z.gcd_greatest; apply Hdiv; assumption.
Qed.

(** ** The charset *)

Lemma utf8_chars_ascii bs :
  Forall (fun b => (b < 128)%N) bs -> utf8_chars bs = Some bs.
Proof.
  induction 1 as [|b bs Hb _ IH]; [reflexivity|].
  cbn [utf8_chars]. apply N.ltb_lt in Hb. rewrite Hb, IH. reflexivity.
Qed.

(** X6: the charset of a readable file follows the order of the attempts:
    utf-8 exactly when the bytes are well-formed UTF-8, utf-16 exactly
    when they are not but are well-formed UTF-16, latin-1 exactly when
    they are neither; and the decoded text is the one of that codec. *)
Theorem charset_follows_decoding_order be fs filepath raw :
  fs filepath = Some raw ->
  let p := analyze_file be fs filepath in
  (charset p = Some utf_8 <-> decode_utf8 raw <> None)
  /\ (charset p = Some utf_16
      <-> decode_utf8 raw = None /\ decode_utf16 be raw <> None)
  /\ (charset p = Some latin_1
      <-> decode_utf8 raw = None /\ decode_utf16 be raw = None)
  /\ (charset p = Some utf_8 -> decode_utf8 raw = Some (snd (detected be raw)))
  /\ (charset p = Some utf_16 ->
      decode_utf16 be raw = Some (snd (detected be raw)))
  /\ (charset p = Some latin_1 -> decode_latin1 raw = snd (detected be raw)).
Proof.
  intros Hfs p. subst p.
  rewrite (analyze_file_readable be fs filepath raw Hfs).
  cbn [analyzed charset]. unfold detected.
  destruct (decode_utf8 raw) as [t8|]; cbn [fst snd].
  - repeat split; try discriminate; try reflexivity;
      intros [? ?]; discriminate.
  - destruct (decode_utf16 be raw) as [t16|]; cbn [fst snd];
      repeat split; try discriminate; try reflexivity; try tauto;
      try (intros [? ?]; congruence); try (intros ?; congruence).
Qed.

(** X7: a readable file in which every byte is below 128 is detected as
    utf-8, and its text has the code points of its bytes. *)
Theorem ascii_file_is_utf8 be fs filepath raw :
  fs filepath = Some raw ->
  Forall (fun b => (Byte.to_N b < 128)%N) raw ->
  charset (analyze_file be fs filepath) = Some utf_8
  /\ detected be raw = (utf_8, map Byte.to_N raw).
Proof.
  intros Hfs Hascii.
  assert (decode_utf8 raw = Some (map Byte.to_N raw)) as H8.
  { unfold decode_utf8. apply utf8_chars_ascii.
    apply Forall_map. exact Hascii. }
  rewrite (analyze_file_readable be fs filepath raw Hfs).
  cbn [analyzed charset]. unfold detected. rewrite H8. auto.
Qed.

Lemma utf16_units_even big_endian (bs : text) us :
  utf16_units big_endian bs = Some us -> Nat.even (length bs) = true.
Proof.
  revert us. induction bs as [|b|b0 b1 bs IH _] using text_ind2; intros us.
  - reflexivity.
  - discriminate.
  - cbn [utf16_units length Nat.even].
    destruct (utf16_units big_endian bs) as [us'|]; [|discriminate].
    intros _. exact (IH us' eq_refl).
Qed.

Lemma decode_utf16_even be raw t :
  decode_utf16 be raw = Some t -> Nat.even (length raw) = true.
Proof.
  unfold decode_utf16. rewrite <- (length_map Byte.to_N raw).
  generalize (map Byte.to_N raw). intros bs.
  assert (forall b body,
             match utf16_units b body with
             | Some us => utf16_chars us
             | None => None
             end = Some t -> Nat.even (length body) = true) as Hbody.
  { intros b body. destruct (utf16_units b body) eqn:Hu; [|discriminate].
    intros _. eapply utf16_units_even, Hu. }
  destruct bs as [|b0 [|b1 r]].
  - reflexivity.
  - destruct b0 as [|p0]; [discriminate|].
    do 8 (try (destruct p0 as [p0|p0|]; try discriminate)).
  - destruct b0 as [|p0]; [apply Hbody|].
    do 8 (try (destruct p0 as [p0|p0|]; try apply Hbody));
      (destruct b1 as [|p1]; [apply Hbody|]);
      do 8 (try (destruct p1 as [p1|p1|]; try apply Hbody));
      intros H; cbv beta iota zeta in H; apply Hbody in H; exact H.
Qed.

(** X8: a file is detected as utf-16 only if it is not empty and has an
    even number of bytes. *)
Theorem utf16_only_for_even_length be fs filepath raw :
  fs filepath = Some raw ->
  charset (analyze_file be fs filepath) = Some utf_16 ->
  raw <> [] /\ Nat.even (length raw) = true.
Proof.
  intros Hfs. rewrite (analyze_file_readable be fs filepath raw Hfs).
  cbn [analyzed charset]. unfold detected.
  destruct (decode_utf8 raw) as [t8|] eqn:H8; [discriminate|].
  destruct (decode_utf16 be raw) as [t16|] eqn:H16; [|discriminate].
  intros _. split.
  - intros ->. discriminate.
  - apply (decode_utf16_even be raw t16 H16).
Qed.

(** ** Aggregation *)

Section TotalFacts.
Context {K : Type} `{EqDec K}.

Lemma counter_total_set k v (c : Counter K) :
  counter_total (counter_set k v c)
  = (counter_total c - counter_get k c + v)%Z.
Proof.
  induction c as [|[k0 n] c IH];
    cbn [counter_set counter_get counter_total fold_right snd].
  - lia.
  - destruct (eq_dec k k0); cbn [counter_total fold_right snd].
    + lia.
    + fold (counter_total (counter_set k v c)). fold (counter_total c).
      rewrite IH. lia.
Qed.

Lemma counter_total_update vs : forall c : Counter K,
  counter_total (counter_update vs c)
  = (counter_total c + Z.of_nat (length vs))%Z.
Proof.
  induction vs as [|v vs IH]; intros c; cbn [counter_update fold_left length].
  - lia.
  - fold (counter_update vs (counter_incr v c)). rewrite IH.
    unfold counter_incr. rewrite counter_total_set. lia.
Qed.

Lemma counter_total_tally (vs : list K) :
  counter_total (tally vs) = Z.of_nat (length vs).
Proof. unfold tally. rewrite counter_total_update. reflexivity. Qed.
End TotalFacts.

Lemma non_null_length {A} (field : FileProperties -> option A) records :
  length (non_null field records)
  = length (filter (has_field field) records).
Proof.
  unfold non_null, has_field.
  induction records as [|p records IH]; [reflexivity|].
  cbn [flat_map filter]. destruct (field p); cbn [app length]; now rewrite IH.
Qed.

Lemma truthy_size_length records :
  length (non_null truthy_size records) = length (filter has_size records).
Proof.
  unfold non_null, truthy_size, has_size.
  induction records as [|p records IH]; [reflexivity|].
  cbn [flat_map filter]. destruct (indent_size p) as [v|]; [|exact IH].
  destruct (v =? 0)%Z; cbn [negb app length]; now rewrite IH.
Qed.

(** X9: every record votes at most once for a field: for an extension,
    the counts of a counter add up to the number of its records that have
    the field, where an [indent_size] of 0 counts as missing, like
    [None]; so no total exceeds the number of records. *)
Theorem one_vote_per_record_and_field file_properties ext :
  let records := records_of file_properties ext in
  let a := tallies_of (aggregate_properties file_properties) ext in
  counter_total (indent_style_votes a)
  = Z.of_nat (length (filter (has_field indent_style) records))
  /\ counter_total (indent_size_votes a)
     = Z.of_nat (length (filter has_size records))
  /\ counter_total (eol_votes a)
     = Z.of_nat (length (filter (has_field eol) records))
  /\ counter_total (charset_votes a)
     = Z.of_nat (length (filter (has_field charset) records))
  /\ (counter_total (indent_style_votes a) <= Z.of_nat (length records))%Z
  /\ (counter_total (indent_size_votes a) <= Z.of_nat (length records))%Z
  /\ (counter_total (eol_votes a) <= Z.of_nat (length records))%Z
  /\ (counter_total (charset_votes a) <= Z.of_nat (length records))%Z.
Proof.
  cbn zeta. pose proof (tallies_of_records file_properties ext) as Ha.
  cbn zeta in Ha. rewrite Ha.
  cbn [indent_style_votes indent_size_votes eol_votes charset_votes].
  rewrite !counter_total_tally, truthy_size_length, !non_null_length.
  set (records := records_of file_properties ext).
  pose proof (filter_length_le (has_field indent_style) records).
  pose proof (filter_length_le has_size records).
  pose proof (filter_length_le (has_field eol) records).
  pose proof (filter_length_le (has_field charset) records).
  repeat split; lia.
Qed.

Lemma has_vote_iff p :
  has_vote p = true
  <-> has_field indent_style p = true \/ has_size p = true
      \/ has_field eol p = true \/ has_field charset p = true.
Proof.
  unfold has_vote, has_field, has_size, truthy_size.
  destruct (indent_style p), (indent_size p) as [v|], (eol p), (charset p);
    try destruct (v =? 0)%Z; cbn [negb]; intuition discriminate.
Qed.

Lemma In_records_of_key file_properties e p :
  In p (records_of file_properties e) -> In e (map fst file_properties).
Proof.
  intros Hin. apply In_records_of in Hin as (item & Hitem & <- & _).
  apply in_map, Hitem.
Qed.

Lemma non_null_In {A} (field : FileProperties -> option A) records v :
  In v (non_null field records)
  <-> exists p, In p records /\ field p = Some v.
Proof.
  unfold non_null. rewrite in_flat_map. split.
  - intros (p & Hp & Hv). destruct (field p) eqn:Hf; [|contradiction].
    destruct Hv as [<-|[]]. exists p. auto.
  - intros (p & Hp & Hf). exists p. split; [exact Hp|].
    rewrite Hf. left. reflexivity.
Qed.

Lemma voting_record_tallies file_properties e p :
  In p (records_of file_properties e) -> has_vote p = true ->
  tallies_of (aggregate_properties file_properties) e <> no_votes.
Proof.
  intros Hp Hv Heq.
  pose proof (tallies_of_records file_properties e) as Ha. cbn zeta in Ha.
  rewrite Heq in Ha. unfold no_votes in Ha.
  injection Ha as H1 H2 H3 H4. symmetry in H1, H2, H3, H4.
  apply tally_nil_iff in H1, H2, H3, H4.
  assert (forall A (field : FileProperties -> option A),
             non_null field (records_of file_properties e) = [] ->
             field p = None) as Hnone.
  { intros A field Hnil. destruct (field p) as [v|] eqn:Hf; [|reflexivity].
    assert (In v (non_null field (records_of file_properties e))) as Hin
        by (apply non_null_In; exists p; auto).
    rewrite Hnil in Hin. destruct Hin. }
  unfold has_vote in Hv.
  rewrite (Hnone _ _ H1), (Hnone _ _ H2), (Hnone _ _ H3), (Hnone _ _ H4) in Hv.
  discriminate.
Qed.

(** X10: [aggregated] has an entry for an extension exactly when a record
    of the extension has a value that votes; an extension whose records
    are all null, or which has no record, gets no entry; the keys of
    [aggregated] are distinct, they are keys of [file_properties], and
    an entry never has four empty counters. *)
Theorem aggregated_keys file_properties :
  let aggregated := aggregate_properties file_properties in
  NoDup (map fst aggregated)
  /\ (forall e,
         In e (map fst aggregated)
         <-> exists p, In p (records_of file_properties e)
                       /\ (has_field indent_style p = true
                           \/ has_size p = true
                           \/ has_field eol p = true
                           \/ has_field charset p = true))
  /\ (forall e, In e (map fst aggregated) -> In e (map fst file_properties))
  /\ (forall e, In e (map fst aggregated) ->
                tallies_of aggregated e <> no_votes).
Proof.
  cbn zeta. split; [apply NoDup_keys_aggregate_properties|].
  assert (forall e,
             In e (map fst (aggregate_properties file_properties))
             <-> exists p, In p (records_of file_properties e)
                           /\ (has_field indent_style p = true
                               \/ has_size p = true
                               \/ has_field eol p = true
                               \/ has_field charset p = true)) as Hkeys.
  { intros e. rewrite In_keys_aggregate_properties.
    split; intros (p & Hp & Hv); exists p; (split; [exact Hp|]);
      apply has_vote_iff; exact Hv. }
  split; [exact Hkeys|]. split.
  - intros e He. apply Hkeys in He as (p & Hp & _).
    apply (In_records_of_key _ _ _ Hp).
  - intros e He. apply Hkeys in He as (p & Hp & Hv).
    apply (voting_record_tallies file_properties e p Hp).
    apply has_vote_iff, Hv.
Qed.

(** ** [determine_setting] *)

(** X11: on any counter, with zero or negative counts too,
    [determine_setting] returns the default only when the counter has no
    key; otherwise it returns the first key that has the highest count:
    every key before it has a smaller count and no key after it has a
    greater one. *)
Theorem determine_setting_first_maximum {K} (counter : Counter K) default :
  (counter = [] -> determine_setting counter default = default)
  /\ (counter <> [] ->
      exists n before after,
        counter = before ++ (determine_setting counter default, n) :: after
        /\ (forall k m, In (k, m) before -> (m < n)%Z)
        /\ (forall k m, In (k, m) after -> (m <= n)%Z)).
Proof.
  split; [intros ->; reflexivity|].
  destruct counter as [|x xs]; [contradiction|]. intros _.
  unfold determine_setting. cbn [truthy negb most_common1].
  destruct (max_item_first x xs) as (c1 & c2 & Heq & H1 & H2).
  destruct (max_item x xs) as [w n]. cbn [snd] in H1, H2.
  exists n, c1, c2. split; [exact Heq|].
  split; intros k m Hin; [apply (H1 (k, m) Hin)|apply (H2 (k, m) Hin)].
Qed.

(** ** The document *)

Lemma dict_get_perm {V} (d1 d2 : dict V) k :
  NoDup (map fst d1) -> Permutation d1 d2 -> dict_get k d1 = dict_get k d2.
Proof.
  intros Hnd Hperm.
  assert (NoDup (map fst d2)) as Hnd2
      by (apply (Permutation_NoDup (Permutation_map fst Hperm)), Hnd).
  destruct (dict_get k d1) as [v|] eqn:H1.
  - apply dict_get_Some in H1. symmetry.
    apply dict_get_In; [exact Hnd2|]. apply (Permutation_in _ Hperm), H1.
  - destruct (dict_get k d2) as [v|] eqn:H2; [|reflexivity].
    apply dict_get_Some in H2.
    apply (Permutation_in _ (Permutation_sym Hperm)) in H2.
    rewrite (dict_get_In d1 k v Hnd H2) in H1. discriminate.
Qed.

(** X12: the document does not depend on the order in which the
    extensions were inserted in [aggregated]: two dictionaries with the
    same items give the same document. *)
Theorem document_independent_of_insertion_order aggregated1 aggregated2 :
  NoDup (map fst aggregated1) ->
  Permutation aggregated1 aggregated2 ->
  generate_editorconfig aggregated1 = generate_editorconfig aggregated2.
Proof.
  intros Hnd Hperm.
  assert (NoDup (map fst aggregated2)) as Hnd2
      by (apply (Permutation_NoDup (Permutation_map fst Hperm)), Hnd).
  rewrite !generate_editorconfig_extensions by assumption.
  f_equal.
  assert (extensions aggregated1 = extensions aggregated2) as <-.
  { apply sorted_unique; try (apply extensions_sorted; assumption).
    intros e. rewrite !In_extensions.
    split; intros [Hin Hne]; (split; [|exact Hne]).
    - apply (Permutation_in _ (Permutation_map fst Hperm)), Hin.
    - apply (Permutation_in _ (Permutation_sym (Permutation_map fst Hperm))).
      exact Hin. }
  f_equal. apply map_ext. intros e. unfold tallies_of.
  rewrite (dict_get_perm aggregated1 aggregated2 e Hnd Hperm). reflexivity.
Qed.

Lemma unlines_end l ls :
  exists body, unlines (l :: ls) = body ++ [LF].
Proof.
  revert l. induction ls as [|l' ls IH]; intros l.
  - exists l. unfold unlines. cbn [map concat]. now rewrite app_nil_r.
  - destruct (IH l') as [body Hb].
    exists ((l ++ [LF]) ++ body).
    change (unlines (l :: l' :: ls)) with ((l ++ [LF]) ++ unlines (l' :: ls)).
    rewrite Hb, app_assoc. reflexivity.
Qed.

Lemma section_text_end ext a :
  exists body, section_text ext a = body ++ [LF].
Proof. unfold section_text. cbv zeta. apply unlines_end. Qed.

Lemma concat_sections_end (items : list (text * Tallies)) :
  let sections :=
    concat
      (map (fun item : text * Tallies =>
              if text_eqb (fst item) (lit "") then []
              else [LF] ++ section_text (fst item) (snd item))
           items) in
  sections = [] \/ exists body, sections = body ++ [LF].
Proof.
  induction items as [|[e a] items IH]; cbn zeta in *; [left; reflexivity|].
  cbn [map concat fst snd].
  destruct IH as [->|[body ->]].
  - rewrite app_nil_r. destruct (text_eqb e (lit "")); [left; reflexivity|].
    right. destruct (section_text_end e a) as [b Hb].
    exists ([LF] ++ b). rewrite Hb, app_assoc. reflexivity.
  - right. eexists. rewrite app_assoc. reflexivity.
Qed.

(** X13: whatever [aggregated] holds, the document starts with the
    universal section and ends with a line feed; it is the universal
    section alone exactly when no extension other than the empty one has
    an entry, in particular when [aggregated] is empty. *)
Theorem document_frame aggregated :
  (exists rest, generate_editorconfig aggregated = universal_section ++ rest)
  /\ (exists body, generate_editorconfig aggregated = body ++ [LF])
  /\ (generate_editorconfig aggregated = universal_section
      <-> forall e, In e (map fst aggregated) -> e = []).
Proof.
  rewrite generate_editorconfig_sections.
  set (sections :=
         concat
           (map (fun item : text * Tallies =>
                   if text_eqb (fst item) (lit "") then []
                   else [LF] ++ section_text (fst item) (snd item))
                (sorted aggregated))).
  split; [exists sections; reflexivity|]. split.
  - destruct (concat_sections_end (sorted aggregated)) as [Hs|[body Hs]];
      fold sections in Hs; rewrite Hs.
    + rewrite app_nil_r. apply unlines_end.
    + exists (universal_section ++ body). now rewrite app_assoc.
  - assert (sections = []
            <-> forall e, In e (map fst (sorted aggregated)) -> e = [])
      as Hnil.
    { subst sections. induction (sorted aggregated) as [|[e a] items IH].
      - split; [intros _ e []|reflexivity].
      - cbn [map concat fst snd]. split.
        + intros Hc. apply app_eq_nil in Hc as [He Hrest].
          destruct (text_eqb_spec e (lit "")) as [->|]; [|discriminate].
          intros e' [<-|Hin]; [reflexivity|]. apply IH; assumption.
        + intros Hall.
          rewrite (proj2 IH (fun e' H => Hall e' (or_intror H))).
          rewrite (Hall e (or_introl eq_refl)). reflexivity. }
    split.
    + intros Heq.
      assert (sections = []) as Hs.
      { apply (app_inv_head universal_section). now rewrite app_nil_r. }
      intros e He. apply (proj1 Hnil Hs).
      apply (Permutation_in _ (Permutation_sym (sorted_keys_perm aggregated))).
      exact He.
    + intros Hall. rewrite (proj2 Hnil); [apply app_nil_r|].
      intros e He. apply Hall.
      apply (Permutation_in _ (sorted_keys_perm aggregated)), He.
Qed.

(** ** The scan of [main] *)

Lemma analyze_file_cases be fs filepath :
  analyze_file be fs filepath = init_properties
  \/ exists cs t, analyze_file be fs filepath = analyzed cs t.
Proof.
  destruct (fs filepath) as [raw|] eqn:Hfs.
  - right. eexists _, _. apply (analyze_file_readable be fs filepath raw Hfs).
  - left. apply (analyze_file_unreadable be fs filepath Hfs).
Qed.

Lemma identifiable_record be fs filepath :
  identifiable (analyze_file be fs filepath) = true ->
  let p := analyze_file be fs filepath in
  indent_style p <> None /\ eol p <> None /\ charset p <> None
  /\ (indent_size p <> None <-> indent_style p = Some space)
  /\ (forall n, indent_size p = Some n -> (1 <= n)%Z).
Proof.
  cbn zeta. destruct (analyze_file_cases be fs filepath) as [->|(cs & t & ->)];
    [discriminate|].
  intros Hid. unfold identifiable in Hid.
  destruct (indent_style (analyzed cs t)) as [s|] eqn:Hs; [|discriminate].
  split; [discriminate|]. split; [discriminate|]. split; [discriminate|].
  destruct s.
  - rewrite analyzed_indent_size, Hs.
    split; [split; [intros H; contradiction|discriminate]|discriminate].
  - destruct (analyzed_space_size cs t Hs) as (g & Hg & Hg1 & _).
    rewrite Hg. split; [split; [reflexivity|discriminate]|].
    intros n Hn. injection Hn as <-. exact Hg1.
Qed.

Section ScanGroups.
Variable host_big_endian : bool.
Variable fs : text -> option (list byte).
Variable from_file : text -> option text.
Variable splitext : text -> text * text.
Variable lower : text -> text.

Lemma is_binary_file_iff filepath :
  is_binary_file from_file filepath = true
  <-> from_file filepath = None
      \/ exists mime, from_file filepath = Some mime
                      /\ startswith (lit "text/") mime = false.
Proof.
  unfold is_binary_file. destruct (from_file filepath) as [mime|].
  - rewrite negb_true_iff. split.
    + intros Hs. right. exists mime. auto.
    + intros [Hnone|(m & Hm & Hs)]; [discriminate|].
      injection Hm as <-. exact Hs.
  - split; [auto|reflexivity].
Qed.

Lemma scan_file_binary filepath file_properties :
  is_binary_file from_file filepath = true ->
  scan_file host_big_endian fs from_file splitext lower file_properties
            filepath
  = file_properties.
Proof. intros Hbin. unfold scan_file. rewrite Hbin. reflexivity. Qed.

(** X14: a file is taken for binary when libmagic raises or reports a type
    that does not start with text/; such a file changes nothing in
    [file_properties], wherever it comes in the scan. *)
Theorem binary_file_is_skipped filepath :
  (is_binary_file from_file filepath = true
   <-> from_file filepath = None
       \/ exists mime, from_file filepath = Some mime
                       /\ startswith (lit "text/") mime = false)
  /\ (is_binary_file from_file filepath = true ->
      forall before after,
        scan host_big_endian fs from_file splitext lower
             (before ++ filepath :: after)
        = scan host_big_endian fs from_file splitext lower
               (before ++ after)).
Proof.
  split; [apply is_binary_file_iff|].
  intros Hbin before after. rewrite !scan_app. cbn [fold_left].
  rewrite (scan_file_binary _ _ Hbin). reflexivity.
Qed.

Lemma scan_file_kept fp f :
  scan_file host_big_endian fs from_file splitext lower fp f
  = if kept host_big_endian fs from_file f
    then dict_update [] (get_file_extension splitext lower f)
                     (fun l => l ++ [analyze_file host_big_endian fs f]) fp
    else fp.
Proof.
  unfold scan_file, kept.
  destruct (is_binary_file from_file f); cbn [negb andb]; [reflexivity|].
  destruct (identifiable (analyze_file host_big_endian fs f)); reflexivity.
Qed.

Lemma get_or_scan_from files : forall fp ext,
  get_or [] (fold_left (scan_file host_big_endian fs from_file splitext lower)
                       files fp) ext
  = get_or [] fp ext
    ++ contributions host_big_endian fs from_file splitext lower ext files.
Proof.
  induction files as [|f files IH]; intros fp ext; cbn [fold_left].
  - unfold contributions. cbn [flat_map]. now rewrite app_nil_r.
  - rewrite IH, scan_file_kept. unfold contributions. cbn [flat_map].
    destruct (kept host_big_endian fs from_file f); cbn [andb];
      [|reflexivity].
    rewrite get_or_update.
    destruct (text_eqb ext (get_file_extension splitext lower f));
      [rewrite <- app_assoc|]; reflexivity.
Qed.

Lemma NoDup_keys_scan_from files : forall fp,
  NoDup (map fst fp) ->
  NoDup (map fst (fold_left
                    (scan_file host_big_endian fs from_file splitext lower)
                    files fp)).
Proof.
  induction files as [|f files IH]; intros fp Hnd; [exact Hnd|].
  cbn [fold_left]. apply IH. rewrite scan_file_kept.
  destruct (kept host_big_endian fs from_file f); [|exact Hnd].
  apply NoDup_dict_keys_update, Hnd.
Qed.

Lemma contributions_In ext files p :
  In p (contributions host_big_endian fs from_file splitext lower ext files)
  <-> exists f, In f files
                /\ kept host_big_endian fs from_file f = true
                /\ get_file_extension splitext lower f = ext
                /\ p = analyze_file host_big_endian fs f.
Proof.
  unfold contributions. rewrite in_flat_map. split.
  - intros (f & Hf & Hp).
    destruct (kept host_big_endian fs from_file f) eqn:Hk; [|contradiction].
    destruct (text_eqb_spec ext (get_file_extension splitext lower f))
      as [->|]; [|contradiction].
    destruct Hp as [<-|[]]. exists f. repeat split; auto.
  - intros (f & Hf & Hk & <- & ->). exists f. split; [exact Hf|].
    rewrite Hk, text_eqb_refl. left. reflexivity.
Qed.

Lemma In_keys_scan_from files : forall fp e,
  In e (map fst (fold_left
                   (scan_file host_big_endian fs from_file splitext lower)
                   files fp))
  <-> In e (map fst fp)
      \/ contributions host_big_endian fs from_file splitext lower e files
         <> [].
Proof.
  induction files as [|f files IH]; intros fp e; cbn [fold_left].
  - unfold contributions. cbn [flat_map]. tauto.
  - rewrite IH, scan_file_kept. unfold contributions. cbn [flat_map].
    fold (contributions host_big_endian fs from_file splitext lower e files).
    destruct (kept host_big_endian fs from_file f); cbn [andb];
      [|tauto].
    rewrite In_dict_keys_update.
    destruct (text_eqb_spec e (get_file_extension splitext lower f))
      as [->|Hne].
    + split; [intros _; right; discriminate|intros _; left; left; reflexivity].
    + cbn [app]. tauto.
Qed.

(** X15: after the scan, [file_properties] has distinct keys, and its list
    for an extension holds, in the order of the scan, the records of the
    files that are not binary, have an [indent_style] and an [eol], and
    have this extension; an extension is a key exactly when this list is
    not empty. *)
Theorem scan_groups_by_extension files ext :
  let file_properties :=
    scan host_big_endian fs from_file splitext lower files in
  let records :=
    contributions host_big_endian fs from_file splitext lower ext files in
  NoDup (map fst file_properties)
  /\ get_or [] file_properties ext = records
  /\ (In ext (map fst file_properties) <-> records <> [])
  /\ (forall l, In (ext, l) file_properties -> l = records)
  /\ (forall p,
         In p records
         <-> exists f, In f files
                       /\ is_binary_file from_file f = false
                       /\ identifiable (analyze_file host_big_endian fs f)
                          = true
                       /\ get_file_extension splitext lower f = ext
                       /\ p = analyze_file host_big_endian fs f).
Proof.
  cbn zeta. unfold scan.
  assert (NoDup (map fst (fold_left
                            (scan_file host_big_endian fs from_file splitext
                                       lower) files [])))
    as Hnd by (apply NoDup_keys_scan_from; constructor).
  pose proof (get_or_scan_from files [] ext) as Hget. cbn [app] in Hget.
  change (get_or [] [] ext) with (@nil FileProperties) in Hget.
  cbn [app] in Hget.
  split; [exact Hnd|]. split; [exact Hget|]. split; [|split].
  - rewrite In_keys_scan_from. cbn [map In]. tauto.
  - intros l Hl. rewrite <- Hget. unfold get_or.
    rewrite (dict_get_In _ _ _ Hnd Hl). reflexivity.
  - intros p. rewrite contributions_In. unfold kept.
    split; intros (f & Hf & H); exists f; (split; [exact Hf|]).
    + destruct H as (Hk & He & Hp). apply andb_true_iff in Hk as [Hb Hi].
      apply negb_true_iff in Hb. auto.
    + destruct H as (Hb & Hi & He & Hp). rewrite Hb, Hi. auto.
Qed.

(** X16: every record that the scan stores has an [indent_style], an
    [eol] and a [charset]; it has an [indent_size] exactly when its
    [indent_style] is space, and the size is then at least 1. *)
Theorem scanned_records_are_complete files ext p :
  In p (get_or [] (scan host_big_endian fs from_file splitext lower files)
               ext) ->
  indent_style p <> None /\ eol p <> None /\ charset p <> None
  /\ (indent_size p <> None <-> indent_style p = Some space)
  /\ (forall n, indent_size p = Some n -> (1 <= n)%Z).
Proof.
  unfold scan. rewrite get_or_scan_from. cbn [app].
  change (get_or [] [] ext) with (@nil FileProperties). cbn [app].
  intros Hin. apply contributions_In in Hin as (f & _ & Hk & _ & ->).
  unfold kept in Hk. apply andb_true_iff in Hk as [_ Hid].
  apply (identifiable_record host_big_endian fs f Hid).
Qed.
End ScanGroups.

(** ** From the scan to the sections *)

Lemma records_of_absent file_properties e :
  dict_get e file_properties = None -> records_of file_properties e = [].
Proof.
  induction file_properties as [|[k v] fp IH];
    cbn [dict_get records_of flat_map fst snd]; [reflexivity|].
  destruct (text_eqb e k); [discriminate|]. exact IH.
Qed.

Lemma records_of_get_or file_properties e :
  NoDup (map fst file_properties) ->
  records_of file_properties e = get_or [] file_properties e.
Proof.
  intros Hnd. unfold get_or.
  destruct (dict_get e file_properties) as [records|] eqn:Hget.
  - apply records_of_dict_get; assumption.
  - apply records_of_absent, Hget.
Qed.

Lemma determine_setting_tally_In {K} `{EqDec K} (vs : list K) default :
  vs <> [] -> In (determine_setting (tally vs) default) vs.
Proof.
  intros Hne. destruct (determine_setting_tally vs default) as [_ Hsel].
  destruct (Hsel Hne) as (_ & pre & post & Hsplit & _).
  rewrite Hsplit at 2. apply in_elt.
Qed.

Lemma non_null_not_nil {A} (field : FileProperties -> option A) records p v :
  In p records -> field p = Some v -> non_null field records <> [].
Proof.
  intros Hp Hf Hnil.
  assert (In v (non_null field records)) as Hin
      by (apply non_null_In; exists p; auto).
  rewrite Hnil in Hin. destruct Hin.
Qed.

Section ScanToSections.
Variable host_big_endian : bool.
Variable fs : text -> option (list byte).
Variable from_file : text -> option text.
Variable splitext : text -> text * text.
Variable lower : text -> text.

Lemma scanned_record_identifiable files ext p :
  In p (get_or [] (scan host_big_endian fs from_file splitext lower files)
               ext) ->
  exists f, p = analyze_file host_big_endian fs f
            /\ identifiable (analyze_file host_big_endian fs f) = true.
Proof.
  unfold scan. rewrite get_or_scan_from. cbn [app].
  change (get_or [] [] ext) with (@nil FileProperties). cbn [app].
  intros Hin. apply contributions_In in Hin as (f & _ & Hk & _ & ->).
  unfold kept in Hk. apply andb_true_iff in Hk as [_ Hid].
  exists f. auto.
Qed.

(** X17: in a run of [main] no default setting is needed: an extension
    that has a list in [file_properties] has an entry in [aggregated], and
    each setting of its section was found in a file of the extension: its
    [indent_style], its [eol] and its [charset] are those of stored
    records, and so is its [indent_size] when the style is space. *)
Theorem sections_show_observed_settings files ext :
  let file_properties :=
    scan host_big_endian fs from_file splitext lower files in
  let aggregated := aggregate_properties file_properties in
  let records := get_or [] file_properties ext in
  let a := tallies_of aggregated ext in
  In ext (map fst file_properties) ->
  In ext (map fst aggregated)
  /\ (exists p, In p records
                /\ indent_style p
                   = Some (determine_setting (indent_style_votes a) space))
  /\ (exists p, In p records
                /\ eol p = Some (determine_setting (eol_votes a) lf))
  /\ (exists p, In p records
                /\ charset p
                   = Some (determine_setting (charset_votes a) utf_8))
  /\ (determine_setting (indent_style_votes a) space = space ->
      exists p, In p records
                /\ indent_size p
                   = Some (determine_setting (indent_size_votes a) 4%Z)).
Proof.
  cbn zeta.
  set (fp := scan host_big_endian fs from_file splitext lower files).
  assert (NoDup (map fst fp)) as Hnd
      by (apply NoDup_keys_scan_from; constructor).
  pose proof (tallies_of_records fp ext) as Ha. cbn zeta in Ha.
  rewrite (records_of_get_or fp ext Hnd) in Ha. rewrite Ha.
  cbn [indent_style_votes indent_size_votes eol_votes charset_votes].
  set (records := get_or [] fp ext) in *.
  intros Hkey.
  assert (exists p0, In p0 records) as (p0 & Hp0).
  { apply In_keys_scan_from in Hkey as [[]|Hne].
    pose proof (get_or_scan_from host_big_endian fs from_file splitext lower
                                 files [] ext) as Hget.
    change (get_or [] [] ext) with (@nil FileProperties) in Hget.
    cbn [app] in Hget. fold (scan host_big_endian fs from_file splitext lower
                                  files) in Hget.
    fold fp in Hget. fold records in Hget. rewrite <- Hget in Hne.
    destruct records as [|p0 r]; [contradiction|].
    exists p0. left. reflexivity. }
  assert (forall p, In p records ->
                    indent_style p <> None /\ eol p <> None
                    /\ charset p <> None
                    /\ (indent_style p = Some space ->
                        exists n, indent_size p = Some n /\ (1 <= n)%Z))
    as Hfacts.
  { intros p Hp.
    destruct (scanned_record_identifiable files ext p Hp) as (f & -> & Hid).
    destruct (identifiable_record host_big_endian fs f Hid)
      as (H1 & H2 & H3 & H4 & H5).
    repeat split; try assumption.
    intros Hs. apply H4 in Hs.
    destruct (indent_size (analyze_file host_big_endian fs f)) as [n|] eqn:Hn;
      [|contradiction].
    exists n. split; [reflexivity|]. apply H5. reflexivity. }
  destruct (Hfacts p0 Hp0) as (Hs0 & He0 & Hc0 & _).
  assert (exists p, In p records
                    /\ indent_style p
                       = Some (determine_setting
                                 (tally (non_null indent_style records)) space))
    as Hstyle.
  { apply non_null_In, determine_setting_tally_In.
    destruct (indent_style p0) as [s|] eqn:Hs; [|contradiction].
    apply (non_null_not_nil indent_style records p0 s Hp0 Hs). }
  split; [|split; [exact Hstyle|split; [|split]]].
  - apply In_keys_aggregate_properties. exists p0.
    rewrite (records_of_get_or fp ext Hnd). split; [exact Hp0|].
    unfold has_vote. destruct (indent_style p0); [|contradiction].
    reflexivity.
  - apply non_null_In, determine_setting_tally_In.
    destruct (eol p0) as [e|] eqn:He; [|contradiction].
    apply (non_null_not_nil eol records p0 e Hp0 He).
  - apply non_null_In, determine_setting_tally_In.
    destruct (charset p0) as [c|] eqn:Hc; [|contradiction].
    apply (non_null_not_nil charset records p0 c Hp0 Hc).
  - intros Hspace. destruct Hstyle as (p & Hp & Hps). rewrite Hspace in Hps.
    destruct (Hfacts p Hp) as (_ & _ & _ & Hsize).
    destruct (Hsize Hps) as (n & Hn & Hn1).
    assert (truthy_size p = Some n) as Htn.
    { unfold truthy_size. rewrite Hn.
      destruct (Z.eqb_spec n 0); [lia|reflexivity]. }
    assert (exists q, In q records
                      /\ truthy_size q
                         = Some (determine_setting
                                   (tally (non_null truthy_size records)) 4%Z))
      as (q & Hq & Hqs).
    { apply non_null_In, determine_setting_tally_In.
      apply (non_null_not_nil truthy_size records p n Hp Htn). }
    exists q. split; [exact Hq|]. unfold truthy_size in Hqs.
    destruct (indent_size q) as [v|]; [|discriminate].
    destruct (v =? 0)%Z; [discriminate|exact Hqs].
Qed.
End ScanToSections.

(** ** The files to scan *)

Lemma tree_induction (P : tree -> Prop) :
  (forall files dirs, Forall (fun d => P (snd d)) dirs -> P (Dir files dirs)) ->
  forall t, P t.
Proof.
  intros Hdir. fix IH 1. intros [files dirs]. apply Hdir.
  induction dirs as [|[name sub] dirs IHdirs]; constructor.
  - apply IH.
  - exact IHdirs.
Qed.

Lemma excluded_iff d : excluded d = true <-> In d EXCLUDED_DIRS.
Proof.
  unfold excluded. rewrite existsb_exists. split.
  - intros (x & Hx & Heq). destruct (text_eqb_spec d x); [subst|discriminate].
    exact Hx.
  - intros Hin. exists d. split; [exact Hin|apply text_eqb_refl].
Qed.

Lemma In_set_add x s y : In y (set_add x s) <-> y = x \/ In y s.
Proof.
  unfold set_add. destruct (existsb (text_eqb x) s) eqn:Hex.
  - apply existsb_exists in Hex as (z & Hz & Heq).
    destruct (text_eqb_spec x z); [subst z|discriminate].
    split; [auto|]. intros [->|]; auto.
  - rewrite in_app_iff. cbn [In]. split; [intros [|[|[]]]; auto|].
    intros [|]; auto.
Qed.

Lemma NoDup_set_add x s : NoDup s -> NoDup (set_add x s).
Proof.
  intros Hnd. unfold set_add. destruct (existsb (text_eqb x) s) eqn:Hex.
  - exact Hnd.
  - apply NoDup_app; [exact Hnd|repeat constructor; intros []|].
    intros y Hy [Heq|[]]. subst y.
    assert (existsb (text_eqb x) s = true) as Ht; [|congruence].
    apply existsb_exists. exists x. split; [exact Hy|apply text_eqb_refl].
Qed.

Lemma In_fold_set_add (g : text -> text) l : forall s y,
  In y (fold_left (fun s f => set_add (g f) s) l s)
  <-> In y s \/ exists f, In f l /\ y = g f.
Proof.
  induction l as [|x l IH]; intros s y; cbn [fold_left].
  - split; [auto|]. intros [|(f & [] & _)]. assumption.
  - rewrite IH, In_set_add. split.
    + intros [[->|Hs]|(f & Hf & ->)]; auto.
      * right. exists x. split; [left|]; reflexivity.
      * right. exists f. split; [right|]; auto.
    + intros [Hs|(f & [<-|Hf] & ->)]; auto. right. exists f. auto.
Qed.

Lemma NoDup_fold_set_add (g : text -> text) l : forall s,
  NoDup s -> NoDup (fold_left (fun s f => set_add (g f) s) l s).
Proof.
  induction l as [|x l IH]; intros s Hnd; [exact Hnd|].
  cbn [fold_left]. apply IH, NoDup_set_add, Hnd.
Qed.

Section CollectFacts.
Variable glob : text -> list text.
Variable isfile : text -> bool.
Variable dir_at : text -> option tree.
Variable join : text -> text -> text.
Variable abspath : text -> text.

Lemma walk_files_found t : forall root g,
  In g (walk_files join root t) <-> found_in join root t g.
Proof.
  induction t as [files dirs IH] using tree_induction. intros root g.
  cbn [walk_files]. rewrite in_app_iff, in_map_iff, in_flat_map.
  rewrite Forall_forall in IH. split.
  - intros [(name & <- & Hname)|([name sub] & Hd & Hg)].
    + apply found_here, Hname.
    + cbn [fst snd] in Hg. destruct (excluded name) eqn:Hex; [destruct Hg|].
      apply (found_below join root files dirs name sub g Hd).
      * intros Hin. apply excluded_iff in Hin. congruence.
      * apply (IH (name, sub) Hd), Hg.
  - intros Hfound. inversion Hfound as [? ? ? name Hname|
                                        ? ? ? name sub ? Hd Hex Hsub]; subst.
    + left. exists name. auto.
    + right. exists (name, sub). split; [exact Hd|]. cbn [fst snd].
      destruct (excluded name) eqn:He.
      * apply excluded_iff in He. contradiction.
      * apply (IH (name, sub) Hd), Hsub.
Qed.

Lemma In_collect_path s path y :
  In y (collect_path isfile dir_at join abspath s path)
  <-> In y s
      \/ (isfile path = true /\ y = abspath path)
      \/ (isfile path = false
          /\ exists t g, dir_at path = Some t
                         /\ found_in join path t g /\ y = abspath g).
Proof.
  unfold collect_path. destruct (isfile path).
  - rewrite In_set_add. split.
    + intros [->|Hs]; auto.
    + intros [Hs|[[_ ->]|[Hf _]]]; auto. discriminate.
  - destruct (dir_at path) as [t|].
    + rewrite In_fold_set_add. split.
      * intros [Hs|(g & Hg & ->)]; [auto|]. right. right.
        split; [reflexivity|]. exists t, g.
        split; [reflexivity|]. split; [apply walk_files_found, Hg|reflexivity].
      * intros [Hs|[[Hf _]|(_ & t' & g & Ht & Hg & ->)]];
          [auto|discriminate|].
        injection Ht as <-. right. exists g.
        split; [apply walk_files_found, Hg|reflexivity].
    + split; [auto|]. intros [Hs|[[Hf _]|(_ & t & g & Ht & _)]];
        [assumption|discriminate|discriminate].
Qed.

Lemma In_fold_collect_path l : forall s y,
  In y (fold_left (collect_path isfile dir_at join abspath) l s)
  <-> In y s
      \/ exists path,
          In path l
          /\ ((isfile path = true /\ y = abspath path)
              \/ (isfile path = false
                  /\ exists t g, dir_at path = Some t
                                 /\ found_in join path t g
                                 /\ y = abspath g)).
Proof.
  induction l as [|x l IH]; intros s y; cbn [fold_left].
  - split; [auto|]. intros [|(p & [] & _)]. assumption.
  - rewrite IH, In_collect_path. split.
    + intros [[Hs|Hx]|(p & Hp & H)]; auto.
      * right. exists x. split; [left; reflexivity|exact Hx].
      * right. exists p. split; [right; exact Hp|exact H].
    + intros [Hs|(p & [<-|Hp] & H)]; auto. right. exists p. auto.
Qed.

Lemma NoDup_collect_path s path :
  NoDup s -> NoDup (collect_path isfile dir_at join abspath s path).
Proof.
  intros Hnd. unfold collect_path. destruct (isfile path).
  - apply NoDup_set_add, Hnd.
  - destruct (dir_at path); [|exact Hnd]. apply NoDup_fold_set_add, Hnd.
Qed.

Lemma In_files_to_scan_from paths : forall s y,
  In y (fold_left
          (fun s pattern =>
             fold_left (collect_path isfile dir_at join abspath)
                       (glob pattern) s) paths s)
  <-> In y s
      \/ exists pattern path,
          In pattern paths /\ In path (glob pattern)
          /\ ((isfile path = true /\ y = abspath path)
              \/ (isfile path = false
                  /\ exists t g, dir_at path = Some t
                                 /\ found_in join path t g
                                 /\ y = abspath g)).
Proof.
  induction paths as [|x paths IH]; intros s y; cbn [fold_left].
  - split; [auto|]. intros [|(p & q & [] & _)]. assumption.
  - rewrite IH, In_fold_collect_path. split.
    + intros [[Hs|(p & Hp & H)]|(pat & p & Hpat & Hp & H)]; auto.
      * right. exists x, p. split; [left; reflexivity|]. auto.
      * right. exists pat, p. split; [right; exact Hpat|]. auto.
    + intros [Hs|(pat & p & [<-|Hpat] & Hp & H)]; auto.
      * left. right. exists p. auto.
      * right. exists pat, p. auto.
Qed.

Lemma NoDup_files_to_scan_from paths : forall s,
  NoDup s ->
  NoDup (fold_left
           (fun s pattern =>
              fold_left (collect_path isfile dir_at join abspath)
                        (glob pattern) s) paths s).
Proof.
  induction paths as [|x paths IH]; intros s Hnd; [exact Hnd|].
  cbn [fold_left]. apply IH. generalize (glob x). intros l. revert s Hnd.
  induction l as [|p l IHl]; intros s Hnd; [exact Hnd|].
  cbn [fold_left]. apply IHl, NoDup_collect_path, Hnd.
Qed.

(** X18: [files_to_scan] holds, each once, the absolute paths of the
    matched paths that are files and, for a matched path that is a
    directory, of the files found in it and below it through directories
    whose names are not excluded; nothing else. *)
Theorem files_to_scan_are_found paths :
  NoDup (files_to_scan glob isfile dir_at join abspath paths)
  /\ forall y,
      In y (files_to_scan glob isfile dir_at join abspath paths)
      <-> exists pattern path,
          In pattern paths /\ In path (glob pattern)
          /\ ((isfile path = true /\ y = abspath path)
              \/ (isfile path = false
                  /\ exists t g, dir_at path = Some t
                                 /\ found_in join path t g
                                 /\ y = abspath g)).
Proof.
  unfold files_to_scan. split.
  - apply NoDup_files_to_scan_from. constructor.
  - intros y. rewrite In_files_to_scan_from. cbn [In]. tauto.
Qed.

Lemma found_in_components root t g :
  found_in join root t g ->
  exists names name,
    g = fold_left join (names ++ [name]) root
    /\ Forall (fun n => ~ In n EXCLUDED_DIRS) names.
Proof.
  induction 1 as [root files dirs name Hname
                 |root files dirs name sub g Hd Hex Hsub IH].
  - exists [], name. split; [reflexivity|constructor].
  - destruct IH as (names & file & -> & Hall).
    exists (name :: names), file. split; [reflexivity|].
    constructor; assumption.
Qed.

(** X19: the exclusion only stops the walk from going down.  A matched
    path that is a file is taken wherever it lies, and a matched directory
    is walked whatever its name, so that the files directly in it are
    taken; what the walk of a directory yields is the directory joined
    with names of directories, none of them excluded, and a file name. *)
Theorem exclusion_only_prunes_the_walk paths pattern path :
  In pattern paths -> In path (glob pattern) ->
  (isfile path = true ->
   In (abspath path) (files_to_scan glob isfile dir_at join abspath paths))
  /\ (forall files dirs name,
         isfile path = false -> dir_at path = Some (Dir files dirs) ->
         In name files ->
         In (abspath (join path name))
            (files_to_scan glob isfile dir_at join abspath paths))
  /\ (forall t g,
         dir_at path = Some t -> In g (walk_files join path t) ->
         exists names name,
           g = fold_left join (names ++ [name]) path
           /\ Forall (fun n => ~ In n EXCLUDED_DIRS) names).
Proof.
  intros Hpat Hpath. split; [|split].
  - intros Hfile. unfold files_to_scan. apply In_files_to_scan_from.
    right. exists pattern, path. auto.
  - intros files dirs name Hfile Hdir Hname. unfold files_to_scan.
    apply In_files_to_scan_from. right. exists pattern, path.
    split; [exact Hpat|]. split; [exact Hpath|]. right.
    split; [exact Hfile|]. exists (Dir files dirs), (join path name).
    split; [exact Hdir|]. split; [apply found_here, Hname|reflexivity].
  - intros t g _ Hg. apply walk_files_found in Hg.
    apply (found_in_components path t g Hg).
Qed.
End CollectFacts.

Lemma files_to_scan_are_found_witness :
  NoDup (demo_files_to_scan ["."; "node_modules/x.js"]%string)
  /\ In (lit "/w/./src/b.py")
        (demo_files_to_scan ["."; "node_modules/x.js"]%string).
Proof.
  destruct (files_to_scan_are_found
              demo_glob demo_isfile demo_dir_at posix_join demo_abspath
              (map lit ["."; "node_modules/x.js"]%string)) as [Hnd Hin].
  split; [exact Hnd|]. apply Hin.
  exists (lit "."), (lit "."). split; [left; reflexivity|].
  split; [left; reflexivity|]. right. split; [reflexivity|].
  exists demo_tree, (lit "./src/b.py").
  split; [reflexivity|]. split; [|reflexivity].
  apply (found_below posix_join (lit ".") _ _ (lit "src")
                     (Dir [lit "b.py"] [(lit ".git", Dir [lit "HEAD"] [])])).
  - right. left. reflexivity.
  - vm_compute. intuition discriminate.
  - apply (found_here posix_join (posix_join (lit ".") (lit "src"))
                      [lit "b.py"] _ (lit "b.py")).
    left. reflexivity.
Defined.

Lemma exclusion_only_prunes_the_walk_witness :
  In (lit "/w/node_modules/x.js")
     (demo_files_to_scan ["."; "node_modules/x.js"]%string).
Proof.
  destruct (exclusion_only_prunes_the_walk
              demo_glob demo_isfile demo_dir_at posix_join demo_abspath
              (map lit ["."; "node_modules/x.js"]%string)
              (lit "node_modules/x.js") (lit "node_modules/x.js"))
    as (Hfile & _).
  - right. left. reflexivity.
  - left. reflexivity.
  - apply Hfile. reflexivity.
Defined.

(** On the host of the examples the walk of [.] leaves out the files of
    [node_modules] and of [src/.git]. *)
Lemma demo_walk_prunes :
  demo_files_to_scan ["."]%string = [lit "/w/./a.py"; lit "/w/./src/b.py"].
Proof. reflexivity. Qed.

(** X20: the counters of an extension depend on the records of this
    extension only: two dictionaries that hold the same records for it
    give it the same counters, whatever they hold for other extensions
    and in whatever order their keys are. *)
Theorem tallies_depend_on_own_records file_properties1 file_properties2 ext :
  records_of file_properties1 ext = records_of file_properties2 ext ->
  tallies_of (aggregate_properties file_properties1) ext
  = tallies_of (aggregate_properties file_properties2) ext.
Proof.
  intros Hrec. rewrite !tallies_of_aggregate_properties, Hrec. reflexivity.
Qed.

(** ** Examples of the further properties *)

Lemma no_indented_line_no_style_witness :
  indent_size (analyze_file false (demo_fs notes_files) (lit "notes.txt"))
  = None.
Proof.
  destruct (no_indented_line_no_style
              false (demo_fs notes_files) (lit "notes.txt")
              (list_byte_of_string
                 (snd (hd (""%string, ""%string) notes_files))) eq_refl)
    as (Hiff & Hsize & _).
  apply Hsize, Hiff. intros line Hin. vm_compute in Hin.
  destruct Hin as [<-|[<-|[]]]; right; reflexivity.
Defined.

Lemma space_style_has_size_witness :
  exists g,
    indent_size (analyze_file false (demo_fs mixed_files) (lit "mixed.py"))
    = Some g /\ (1 <= g)%Z.
Proof.
  destruct (space_style_has_size
              false (demo_fs mixed_files) (lit "mixed.py")
              (list_byte_of_string
                 (snd (hd (""%string, ""%string) mixed_files))) eq_refl
              eq_refl) as (g & Hg & Hg1 & _).
  exists g. auto.
Defined.

Lemma charset_follows_decoding_order_witness :
  decode_utf8 (list_byte_of_string
                 (snd (hd (""%string, ""%string) notes_files))) <> None.
Proof.
  destruct (charset_follows_decoding_order
              false (demo_fs notes_files) (lit "notes.txt")
              (list_byte_of_string
                 (snd (hd (""%string, ""%string) notes_files))) eq_refl)
    as (H8 & _).
  apply H8. reflexivity.
Defined.

Lemma ascii_file_is_utf8_witness :
  charset (analyze_file false (demo_fs notes_files) (lit "notes.txt"))
  = Some utf_8.
Proof.
  apply (ascii_file_is_utf8
           false (demo_fs notes_files) (lit "notes.txt")
           (list_byte_of_string
              (snd (hd (""%string, ""%string) notes_files))) eq_refl).
  vm_compute. repeat constructor.
Defined.

Lemma utf16_only_for_even_length_witness :
  [xff; xfe; x41; x00; x0a; x00] <> []
  /\ Nat.even (length [xff; xfe; x41; x00; x0a; x00]) = true.
Proof.
  apply (utf16_only_for_even_length false utf16_fs (lit "wide.txt") _ eq_refl).
  reflexivity.
Defined.

Lemma document_independent_of_insertion_order_witness :
  generate_editorconfig two_entries = generate_editorconfig (rev two_entries).
Proof.
  apply document_independent_of_insertion_order.
  - repeat constructor; cbn; intuition discriminate.
  - apply perm_swap.
Defined.

Lemma scanned_records_are_complete_witness :
  eol (analyze_file false (demo_fs mixed_files) (lit "mixed.py")) <> None.
Proof.
  destruct (scanned_records_are_complete
              false (demo_fs mixed_files) demo_from_file posix_splitext
              ascii_lower [lit "mixed.py"] (lit ".py")
              (analyze_file false (demo_fs mixed_files) (lit "mixed.py")))
    as (_ & He & _).
  - left. reflexivity.
  - exact He.
Defined.

Lemma sections_show_observed_settings_witness :
  In (lit ".py")
     (map fst (aggregate_properties
                 (demo_scan agreeing_files ["a.py"; "b.py"]%string))).
Proof.
  destruct (sections_show_observed_settings
              false (demo_fs agreeing_files) demo_from_file posix_splitext
              ascii_lower (map lit ["a.py"; "b.py"]%string) (lit ".py"))
    as (Hkey & _).
  - left. reflexivity.
  - exact Hkey.
Defined.

Lemma tallies_depend_on_own_records_witness :
  tallies_of (aggregate_properties [(lit ".x", x_records)]) (lit ".x")
  = tallies_of (aggregate_properties
                  [(lit ".y", x_records); (lit ".x", x_records)])
               (lit ".x").
Proof.
  apply tallies_depend_on_own_records. reflexivity.
Defined.
